(** * EPUB reader: spine parsing, spine-order table of contents, retrieval

    A shallow embedding of the TypeScript sources
    - [parseSpine]      (lib/parseSpine.ts),
    - [walkSpine]       (lib/toc/walkSpine.ts),
    - [Reader]          (lib/Reader.ts),
    - [parseRootFile], [Retriever] (lib/index.ts),
    with JavaScript objects as finite maps from property names to values,
    thrown exceptions as the left summand of a sum type, and the calls
    made on the archive as an explicit event log. *)

From Stdlib Require Import ZArith Ascii String.
From stdpp Require Import gmap strings list fin_maps pretty sorting.

Local Open Scope string_scope.
Local Open Scope Z_scope.
Local Open Scope list_scope.

(** ** JavaScript values *)

(** Primitive values.  XML attributes are always [VStr]; [VNum] is needed
    for the [order] counter, [VUndefined] and [VNull] for the tests on
    [id]. *)
Inductive value :=
  | VUndefined
  | VNull
  | VBool (b : bool)
  | VNum (n : Z)
  | VStr (s : string).

#[global] Instance value_eq_dec : EqDecision value.
Proof. solve_decision. Defined.

(** [String(v)], as used by template literals and by property keys. *)
Definition toString (v : value) : string :=
  match v with
  | VUndefined => "undefined"
  | VNull => "null"
  | VBool true => "true"
  | VBool false => "false"
  | VNum n => pretty n
  | VStr s => s
  end.

(** [Boolean(v)]. *)
Definition truthy (v : value) : bool :=
  match v with
  | VUndefined | VNull => false
  | VBool b => b
  | VNum n => negb (n =? 0)
  | VStr s => negb (bool_decide (s = EmptyString))
  end.

(** [v == undefined]: loose equality holds for [undefined] and [null]. *)
Definition eq_undefined (v : value) : bool :=
  match v with
  | VUndefined | VNull => true
  | _ => false
  end.

(** A plain object: its own enumerable properties.  The members it
    inherits from [Object.prototype] come in where the code reads a
    dictionary under a key it is given ([index]) or calls a method of an
    entry ([call_hasOwnProperty], [any_toString]). *)
Abbreviation Obj := (gmap string value).

(** [o[k]]: a missing property reads as [undefined]. *)
Definition get (o : Obj) (k : string) : value := default VUndefined (o !! k).

(** [Object.prototype.hasOwnProperty] applied to [o] and [k]: the
    property exists, whatever its value. *)
Definition hasOwnProperty (o : Obj) (k : string) : bool :=
  bool_decide (is_Some (o !! k)).

(** What reading a dictionary typed [Thing] under a key may give: a
    primitive, a plain object, or the member of [Object.prototype] of
    that name (a built-in function, or the prototype itself for
    [__proto__]). *)
Inductive any :=
  | APrim (v : value)
  | AObj (o : Obj)
  | AInherited (name : string).

#[global] Instance any_eq_dec : EqDecision any.
Proof. solve_decision. Defined.

Abbreviation Thing := (gmap string any).

(** The names every plain object inherits from [Object.prototype]. *)
Definition Object_prototype : list string :=
  ["constructor"; "hasOwnProperty"; "isPrototypeOf"; "propertyIsEnumerable";
   "toLocaleString"; "toString"; "valueOf"; "__proto__";
   "__defineGetter__"; "__defineSetter__"; "__lookupGetter__";
   "__lookupSetter__"].

(** [m[k]] on a dictionary: the own property, else the inherited member
    of that name, else [undefined]. *)
Definition index (m : Thing) (k : string) : any :=
  match m !! k with
  | Some a => a
  | None =>
      if bool_decide (k ∈ Object_prototype) then AInherited k
      else APrim VUndefined
  end.

Definition any_truthy (a : any) : bool :=
  match a with
  | APrim v => truthy v
  | AObj _ => true
  | AInherited _ => true
  end.

(** An [Item] of the manifest is an object of XML attributes. *)
Abbreviation Item := (gmap string value).

(** ** Exceptions *)

(** The [expected] argument of [MIMEError.unless]: a literal string or one
    of the two regular expressions of lib/index.ts. *)
Inductive pattern :=
  | PString (s : string)
  | PALLOWED_MIMES
  | PImage.

Inductive exn :=
  | TypeError (msg : string)
  | Error (msg : string)
  | UnknownItemError (msg : string)
  | MIMEError (id : string) (actual : value) (expected : pattern).

Abbreviation result := (sum exn).
Abbreviation Ok := inr.
Abbreviation throw := inl.

(** Sequencing: an exception aborts what follows. *)
#[global] Instance result_ret : MRet result := fun _ a => inr a.
#[global] Instance result_bind : MBind result := fun _ _ k m =>
  match m with
  | inl e => inl e
  | inr a => k a
  end.

(** ** parseSpine *)

Inductive OneOrMany (A : Type) :=
  | One (a : A)
  | Many (l : list A).
Arguments One {A} a.
Arguments Many {A} l.

(** Modelled from the spec: [toArray] (lib/toArray.ts) is not among the
    sources; §4.1/§4.2 "normalize to a sequence", a single object being
    the collapsed form of a one-element list. *)
Definition toArray {A} (x : OneOrMany A) : list A :=
  match x with
  | One a => [a]
  | Many l => l
  end.

(** One [<itemref>]: its attribute object. *)
Record ItemRef := { ir_attributes : Obj }.

Record RawSpine := {
  itemref : option (OneOrMany ItemRef);
  _attributes : option Obj
}.

(** A top-level field of the [Spine] object: an attribute value, the
    array [contents], whose elements are items (objects), or the object
    [_attributes]. *)
Inductive field :=
  | FVal (v : value)
  | FItems (l : list Item)
  | FObj (o : Obj).

#[global] Instance field_eq_dec : EqDecision field.
Proof. solve_decision. Defined.

Abbreviation Spine := (gmap string field).

(** [Array.prototype.map] with a callback that may throw: elements are
    visited from index [i] upwards and the first exception aborts. *)
Fixpoint map_indexed {A B} (f : A → nat → result B) (l : list A) (i : nat)
  : result (list B) :=
  match l with
  | [] => Ok []
  | x :: xs =>
      y ← f x i ;
      ys ← map_indexed f xs (S i) ;
      Ok (y :: ys)
  end.

(** How a built-in prints in a template literal: the prototype object as
    any plain object, a function as V8 prints native code ([constructor]
    is the function [Object]). *)
Definition native_text (name : string) : string :=
  if bool_decide (name = "__proto__") then "[object Object]"
  else "function " +:+
       (if bool_decide (name = "constructor") then "Object" else name) +:+
       "() { [native code] }".

(** [`${a}`].  An object is printed by its [toString] method: the
    inherited one gives ["[object Object]"]; an own attribute of that
    name is a string, not a function, and the conversion throws. *)
Definition any_toString (a : any) : result string :=
  match a with
  | APrim v => Ok (toString v)
  | AObj o =>
      match o !! "toString" with
      | Some _ => throw (TypeError "Cannot convert object to primitive value")
      | None => Ok "[object Object]"
      end
  | AInherited name => Ok (native_text name)
  end.

(** [o.hasOwnProperty(k)], a method call on the entry: an own attribute
    named [hasOwnProperty] shadows the inherited method and is not a
    function. *)
Definition call_hasOwnProperty (o : Obj) (k : string) : result bool :=
  match o !! "hasOwnProperty" with
  | Some _ => throw (TypeError "l.hasOwnProperty is not a function")
  | None => Ok (hasOwnProperty o k)
  end.

(** [throw new TypeError(`Missing id at index ${index} | item, ${l}`)]:
    what is thrown is that error, or the one building its message
    throws. *)
Definition missing_id (i : nat) (l : any) : exn :=
  match any_toString l with
  | inr text =>
      TypeError ("Missing id at index " +:+ pretty i +:+ " | item, " +:+ text)
  | inl e => e
  end.

(** The callback of [itemref.map]. *)
Definition resolve (rawManifest : Thing) (e : ItemRef) (i : nat) : result Item :=
  let l := index rawManifest (toString (get (ir_attributes e) "idref")) in
  if any_truthy l then
    match l with
    | AObj o =>
        has ← call_hasOwnProperty o "id";
        if (has : bool) then Ok o else throw (missing_id i l)
    | APrim _ | AInherited _ =>
        (* a primitive or a built-in has no own property "id" *)
        throw (missing_id i l)
    end
  else throw (missing_id i l).

Definition parseSpine (raw : RawSpine) (rawManifest : Thing) : result Spine :=
  let s : Spine :=
    <["_attributes" := FObj ∅]>
      ((FVal <$> default ∅ (_attributes raw))
         ∪ {[ "toc" := FVal (VStr "ncx"); "contents" := FItems [] ]}) in
  match itemref raw with
  | Some ir =>
      contents ← map_indexed (resolve rawManifest) (toArray ir) 0%nat ;
      Ok (<["contents" := FItems contents]> s)
  | None => Ok s
  end.

(** ** walkSpine *)

Abbreviation Chapter := (gmap string value).

(** Modelled from the spec: the class [TableOfContents]
    (lib/toc/TableOfContents.ts) is not among the sources; §3 "an ordered
    mapping from chapter id to Chapter; insertion order is reading order;
    keys unique (last write for a given id wins)", that is a JavaScript
    [Map]: the entries in insertion order, [set] on a key already present
    replacing the value in place. *)
Abbreviation TableOfContents := (list (value * Chapter)).

Fixpoint toc_set (k : value) (c : Chapter) (toc : TableOfContents)
  : TableOfContents :=
  match toc with
  | [] => [(k, c)]
  | (k', c') :: rest =>
      if decide (k' = k) then (k, c) :: rest
      else (k', c') :: toc_set k c rest
  end.

Definition toc_keys (toc : TableOfContents) : list value := fst <$> toc.

(** [{ title: item.id, order: order, ...item }]: the spread comes last,
    so a [title] or [order] property of the item itself wins. *)
Definition element (order : Z) (item : Item) : Chapter :=
  item ∪ {[ "title" := get item "id"; "order" := VNum order ]}.

(** The body of the [for] loop, on the pair of the two variables [order]
    and [toc].  [order++] is evaluated while the object literal is built,
    before the test on [element.id]. *)
Definition walk_step (st : Z * TableOfContents) (item : Item)
  : Z * TableOfContents :=
  let '(order, toc) := st in
  let el := element order item in
  let order := order + 1 in
  if eq_undefined (get el "id") then (order, toc)
  else (order, toc_set (get item "id") el toc).

Definition walk (items : list Item) : TableOfContents :=
  (foldl walk_step (0, []) items).2.

(** [for (const item of spine.contents)] needs an iterable: an array, or
    a string, whose one-character pieces carry no [id] and are all
    skipped. *)
Definition walkSpine (spine : Spine) : result TableOfContents :=
  match spine !! "contents" with
  | Some (FItems items) => Ok (walk items)
  | Some (FVal (VStr _)) => Ok []
  | _ => throw (TypeError "spine.contents is not iterable")
  end.

(** ** Strings *)

Definition lower_ascii (c : ascii) : ascii :=
  let n := N_of_ascii c in
  if ((65 <=? n) && (n <=? 90))%N then ascii_of_N (n + 32) else c.

(** The double-quote character. *)
Definition dquote : ascii := ascii_of_nat 34.

(** The letters A to Z folded to lower case, every other character
    kept: what the flag [i] of a regular expression without the flag [u]
    does to the characters an ASCII pattern can match, and what
    [toLowerCase] does to an ASCII string. *)
Fixpoint fold_ascii (s : string) : string :=
  match s with
  | EmptyString => EmptyString
  | String c r => String (lower_ascii c) (fold_ascii r)
  end.

(** [s.includes(sub)]. *)
Fixpoint includes (s sub : string) : bool :=
  String.prefix sub s ||
  match s with
  | EmptyString => false
  | String _ r => includes r sub
  end.

Definition is_space (c : ascii) : bool :=
  let n := N_of_ascii c in
  ((n =? 32) || ((9 <=? n) && (n <=? 13)))%N.

Fixpoint trimStart (s : string) : string :=
  match s with
  | String c r => if is_space c then trimStart r else s
  | EmptyString => EmptyString
  end.

Fixpoint trimEnd (s : string) : string :=
  match s with
  | EmptyString => EmptyString
  | String c r =>
      match trimEnd r with
      | EmptyString => if is_space c then EmptyString else String c EmptyString
      | r' => String c r'
      end
  end.

(** What [trim] does to an ASCII string. *)
Definition trim_ascii (s : string) : string := trimEnd (trimStart s).

(** ** MIMEError *)

(** Contains strings that must be matched as the Epub is parsed. *)
Module INFO.
Definition MIME := "application/epub+zip".
Definition TARGET := "mimetype".
Definition CONTAINER_ID := "meta-inf/container.xml".
Definition OEBPS_ID := "application/oebps-package+xml".
End INFO.

(** [ALLOWED_MIMES] is
    [/^(application\/xhtml\+xml|image\/svg\+xml|text\/css)$/i] and
    [PImage] is [/^image\//i]; a literal string has to be matched
    exactly ("check if the content is exactly Reader.MIME"). *)
Definition pattern_test (p : pattern) (actual : string) : bool :=
  match p with
  | PString s => bool_decide (actual = s)
  | PALLOWED_MIMES =>
      bool_decide (fold_ascii actual ∈
        ["application/xhtml+xml"; "image/svg+xml"; "text/css"])
  | PImage => String.prefix "image/" (fold_ascii actual)
  end.

(** Modelled from the spec: [MIMEError.unless] (lib/error/MIMEError.ts) is
    not among the sources; §7 "Format-mismatch error: an expected
    identifying string/MIME does not match the expected pattern.  Carries
    the offending id, actual value, expected pattern; always fatal at the
    point raised". *)
Definition MIMEError_unless (id : string) (actual : value) (expected : pattern)
  : result unit :=
  if pattern_test expected (toString actual) then Ok ()
  else throw (MIMEError id actual expected).

(** ** Reader *)

(** An entry of the zip archive. *)
Record Entry := {
  filename : string;
  directory : bool;
  content : string
}.

Inductive Writer :=
  | BlobWriter (t : string)
  | TextWriter (encoding : string).

(** What [getData] hands back: text, or a blob of some MIME type. *)
Inductive Data :=
  | Text (s : string)
  | BlobData (t : string) (bytes : string).

Record LoadedEntry := {
  file : Entry;
  data : Data
}.

(** Functions of the host, taken as given: [decodeURI] (which may throw
    a URIError), [String.prototype.toLowerCase] and
    [String.prototype.trim], which go by the Unicode tables (a string
    being the sequence of bytes of its UTF-8 form), and
    [URL.createObjectURL] on a blob. *)
Class Platform := {
  decodeURI : string → result string;
  toLowerCase : string → string;
  trim : string → string;
  createObjectURL : Data → string
}.

(** [URL.createObjectURL(data as Blob)]: the cast is erased, and on a
    string the host throws. *)
Definition URL_createObjectURL `{Platform} (d : Data) : result string :=
  match d with
  | BlobData _ _ => Ok (createObjectURL d)
  | Text _ =>
      throw (TypeError "Failed to execute 'createObjectURL' on 'URL'")
  end.

(** The calls made on the zip library, in the order they are made. *)
Inductive zip_call :=
  | GetEntries
  | Close
  | GetData (e : Entry) (w : Writer).

(** The interface [ReaderLike]. *)
Class ReaderLike (R : Type) := {
  read : string → option string → R → result LoadedEntry * R
}.

Module Reader.

(** The archive blob is given by the entries the zip library lists for
    it; [entries] and [container] are the two fields of the class,
    [calls] records the use made of the archive. *)
Record state := {
  blob : list Entry;
  entries : list Entry;
  container : option LoadedEntry;
  calls : list zip_call
}.

(** [new Reader(value)] *)
Definition new (value : list Entry) : state :=
  {| blob := value; entries := []; container := None; calls := [] |}.

(** A method: it reads and writes the fields and may throw. *)
Definition io (A : Type) : Type := state → result A * state.

#[global] Instance io_ret : MRet io := fun _ a r => (Ok a, r).
#[global] Instance io_bind : MBind io := fun _ _ k m r =>
  match m r with
  | (inl e, r') => (inl e, r')
  | (inr a, r') => k a r'
  end.

Definition raise {A} (e : exn) : io A := fun r => (throw e, r).
Definition lift {A} (x : result A) : io A := fun r => (x, r).
Definition this_entries : io (list Entry) := fun r => (Ok (entries r), r).
Definition set_entries (es : list Entry) : io unit := fun r =>
  (Ok (), {| blob := blob r; entries := es;
             container := container r; calls := calls r |}).
Definition set_container (c : LoadedEntry) : io unit := fun r =>
  (Ok (), {| blob := blob r; entries := entries r;
             container := Some c; calls := calls r |}).
Definition call (c : zip_call) : io unit := fun r =>
  (Ok (), {| blob := blob r; entries := entries r;
             container := container r; calls := calls r ++ [c] |}).

(** The three methods used of [ZipReader] and [Entry]. *)
Definition getEntries : io (list Entry) := fun r =>
  (Ok (blob r), {| blob := blob r; entries := entries r;
                   container := container r;
                   calls := calls r ++ [GetEntries] |}).
Definition close : io unit := call Close.
Definition getData (e : Entry) (w : Writer) : io Data :=
  _ ← call (GetData e w);
  mret (match w with
        | BlobWriter t => BlobData t (content e)
        | TextWriter _ => Text (content e)
        end).

Definition prepareGet (name : string) (predicate : Entry → bool)
  : io Entry :=
  es ← this_entries;
  match find predicate es with
  | Some entry => mret entry
  | None =>
      raise (Error ("Could not find entry with name " +:+ name +:+
                    ", " +:+ String dquote "extracted filename was " +:+
                    name))
  end.

Definition get (name : string) : io Entry :=
  prepareGet name (fun n => bool_decide (filename n = name)).

Section WithPlatform.
Context `{Platform}.

Definition partialSearch (name : string) : io Entry :=
  (* Remove leading '/' for paths *)
  decoded ← lift (decodeURI
    (match name with
     | String "/" rest => rest
     | _ => name
     end));
  let fn := toLowerCase decoded in
  prepareGet fn (fun n =>
    if directory n then false
    else
      let nf := toLowerCase (filename n) in
      includes nf fn || includes fn nf).

(** the appropriate zip writer *)
Definition determineWriter (t : option string) : Writer :=
  match t with
  | Some t' => if includes t' "image/" then BlobWriter t'
               else TextWriter "utf-8"
  | None => TextWriter "utf-8"
  end.

Definition read (name : string) (type : option string) : io LoadedEntry :=
  file ← partialSearch name;
  data ← getData file (determineWriter type);
  mret {| file := file; data := data |}.

Definition checkMimeType : io unit :=
  l ← read INFO.TARGET None;
  let actual := match data l with
                | Text s => s
                | BlobData _ s => s
                end in
  lift (MIMEError_unless INFO.TARGET (VStr actual) (PString INFO.MIME)).

(** Extracts the epub files from a zip archive, retrieves file
    listing, and check mime type. *)
Definition init : io unit :=
  es ← getEntries;
  _ ← set_entries es;
  _ ← close;
  es ← this_entries;
  _ ← (if bool_decide (length es ≠ 0%nat) then checkMimeType
       else raise (Error "Empty archive!"));
  c ← read INFO.CONTAINER_ID None;
  set_container c.

#[global] Instance reader_like : ReaderLike state := Build_ReaderLike _ read.
End WithPlatform.
End Reader.

(** [read(value)] of lib/Reader.ts: build a [Reader] and initialise it. *)
Definition read_blob `{Platform} (value : list Entry)
  : result unit * Reader.state :=
  Reader.init (Reader.new value).

(** ** parseRootFile and open *)

Module EV.
Inductive t := root | metadata | manifest | spine | flow | toc | loaded.
End EV.

Record Parts (Metadata Flow : Type) := {
  metadata : Metadata;
  manifest : Thing;
  spine : Spine;
  flow : Flow;
  toc : TableOfContents;
  version : value
}.
Arguments metadata {Metadata Flow} _.
Arguments manifest {Metadata Flow} _.
Arguments spine {Metadata Flow} _.
Arguments flow {Metadata Flow} _.
Arguments toc {Metadata Flow} _.
Arguments version {Metadata Flow} _.

Record RootFile (RawMetadata RawItems : Type) := {
  pkg_metadata : RawMetadata;
  pkg_manifest_item : RawItems;
  pkg_spine : RawSpine;
  pkg_attributes : Obj
}.
Arguments pkg_metadata {RawMetadata RawItems} _.
Arguments pkg_manifest_item {RawMetadata RawItems} _.
Arguments pkg_spine {RawMetadata RawItems} _.
Arguments pkg_attributes {RawMetadata RawItems} _.

(** [s[k]] on the spine object. *)
Definition prop (s : Spine) (k : string) : field :=
  default (FVal VUndefined) (s !! k).

Section RootFile.
(** What lib/index.ts imports from modules that are not among the
    sources is taken as given: the three parsers of metadata, manifest
    and flow, and [parseTOC], whose promise resolves to a
    [TableOfContents] or to [undefined] ([None]) or rejects. *)
Context {RawMetadata Metadata RawItems Flow Parser Blob : Type}.
Context (parseMetadata : RawMetadata → Metadata)
        (parseManifest : RawItems → Thing)
        (parseFlow : field → Flow)
        (parseTOC : Thing → field → Parser → result (option TableOfContents))
        (createParser : Blob → result Parser)
        (root_xml : Parser → RootFile RawMetadata RawItems).

(** The events emitted, in order, and the outcome.  [if (parts.toc)]
    tests the value for truthiness: [undefined] fails it, an object
    passes it. *)
Definition parseRootFile (pkg : RootFile RawMetadata RawItems)
    (parser : Parser) : list EV.t * result (Parts Metadata Flow) :=
  let metadata := parseMetadata (pkg_metadata pkg) in
  let version :=
    let v := get (pkg_attributes pkg) "version" in
    if eq_undefined v then VStr "2.0" else v in
  let manifest := parseManifest (pkg_manifest_item pkg) in
  match parseSpine (pkg_spine pkg) manifest with
  | inl e => ([EV.metadata; EV.manifest], throw e)
  | inr spine =>
      let flow := parseFlow (prop spine "contents") in
      match parseTOC manifest (prop spine "toc") parser with
      | inl e => ([EV.metadata; EV.manifest; EV.spine; EV.flow], throw e)
      | inr None =>
          ([EV.metadata; EV.manifest; EV.spine; EV.flow],
           throw (TypeError "NO TOC"))
      | inr (Some toc) =>
          ([EV.metadata; EV.manifest; EV.spine; EV.flow; EV.toc; EV.loaded],
           Ok {| metadata := metadata; manifest := manifest;
                 spine := spine; flow := flow; toc := toc;
                 version := version |})
      end
  end.

(** Opens an Epub *)
Definition open (blob : Blob)
  : list EV.t * result (Parts Metadata Flow * Parser) :=
  match createParser blob with
  | inl e => ([], throw e)
  | inr parser =>
      let '(log, r) := parseRootFile (root_xml parser) parser in
      (EV.root :: log, parts ← r; Ok (parts, parser))
  end.
End RootFile.

(** ** parseTOC *)

(** Modelled from the spec: [parseTOC] (lib/toc/parseTOC.ts) and the two
    strategies [walkNavMap] and [walkTOC] are not among the sources.
    §4.4: "Strategy order (first success wins; success = produces a
    non-empty, structurally valid TOC; an exception/failure inside a
    strategy is caught and treated as this strategy does not apply)":
    nav-map, then nav-document, then "degrade to walking [spine.contents]
    directly"; "if no strategy yields a non-empty TOC, the overall
    document-open operation fails", which [parseRootFile] does on a
    result that is not a table.  The call site passes the manifest,
    [spine.toc] and the parser; the spine the third strategy walks is a
    further argument here. *)
Definition succeeded (r : result TableOfContents) : option TableOfContents :=
  match r with
  | inr (entry :: rest) => Some (entry :: rest)
  | _ => None
  end.

Definition first_success (navMap navDoc fallback : result TableOfContents)
  : option TableOfContents :=
  match succeeded navMap with
  | Some t => Some t
  | None =>
      match succeeded navDoc with
      | Some t => Some t
      | None => succeeded fallback
      end
  end.

Section parseTOC.
Context {Parser : Type}.
Context (walkNavMap walkTOC : Thing → field → Parser → result TableOfContents).

Definition parseTOC (spine : Spine) (manifest : Thing) (toc_id : field)
    (parser : Parser) : result (option TableOfContents) :=
  Ok (first_success (walkNavMap manifest toc_id parser)
        (walkTOC manifest toc_id parser) (walkSpine spine)).
End parseTOC.

(** ** Retriever *)

Record Parser (R : Type) := { reader : R }.
Arguments reader {R} _.

Record RetrieverArgs (Metadata Flow R : Type) := {
  parts : Parts Metadata Flow;
  parser : Parser R
}.
Arguments parts {Metadata Flow R} _.
Arguments parser {Metadata Flow R} _.

(** [a[k]] on whatever the manifest lookup gave, for the two names
    [media-type] and [href] the retriever reads: [null] and [undefined]
    have no properties, the other primitives and the built-ins have none
    by these names. *)
Definition any_get (a : any) (k : string) : result value :=
  match a with
  | AObj o => Ok (get o k)
  | APrim VNull =>
      throw (TypeError "Cannot read properties of null")
  | APrim VUndefined =>
      throw (TypeError "Cannot read properties of undefined")
  | APrim _ | AInherited _ => Ok VUndefined
  end.

(** A value used where the code expects a string. *)
Definition as_string (what : string) (v : value) : result string :=
  match v with
  | VStr s => Ok s
  | _ => throw (TypeError (what +:+ " is not a string"))
  end.

Definition data_toString (d : Data) : string :=
  match d with
  | Text s => s
  | BlobData _ _ => "[object Blob]"
  end.

Section Retriever.
Context `{Platform} {Metadata Flow R : Type} `{ReaderLike R}.

Abbreviation Args := (RetrieverArgs Metadata Flow R).

Definition searchManifestOrPanic (a : Args) (id : string) : result any :=
  let l := index (manifest (parts a)) id in
  if decide (l = APrim VUndefined) then
    throw (UnknownItemError ("Unkown manifest item: " +:+ id))
  else Ok l.

(** [parser.reader.read(name, type)], the reader being part of the
    arguments the retriever closes over. *)
Definition reader_read (name : string) (type : option string) (a : Args)
  : result LoadedEntry * Args :=
  let '(r, rd) := read name type (reader (parser a)) in
  (r, {| parts := parts a; parser := {| reader := rd |} |}).

Definition media_type (v : value) : option string :=
  match v with
  | VStr s => Some s
  | _ => None
  end.

Definition getContent (id : string) (a : Args) : result string * Args :=
  match
    elem ← searchManifestOrPanic a id;
    mt ← any_get elem "media-type";
    _ ← MIMEError_unless id mt PALLOWED_MIMES;
    href ← any_get elem "href";
    name ← as_string "name" href;
    Ok (name, mt)
  with
  | inl e => (throw e, a)
  | inr (name, mt) =>
      let '(r, a') := reader_read name (media_type mt) a in
      (l ← r; Ok (data_toString (data l)), a')
  end.

Definition getImage (id : string) (a : Args) : result string * Args :=
  match
    item ← searchManifestOrPanic a id;
    mt ← any_get item "media-type";
    s ← as_string "media-type" mt;
    _ ← MIMEError_unless id (VStr (trim s)) PImage;
    href ← any_get item "href";
    name ← as_string "name" href;
    Ok (name, mt)
  with
  | inl e => (throw e, a)
  | inr (name, mt) =>
      let '(r, a') := reader_read name (media_type mt) a in
      (l ← r; URL_createObjectURL (data l), a')
  end.
End Retriever.

(** ** parse *)

(** The compact form of META-INF/container.xml as far as [getRootPath]
    looks into it: [container.rootfiles.rootfile._attributes].  A member
    that is missing is [None]; [rootfile] is one element, with or without
    attributes, or the array the XML converter makes of several. *)
Record Rootfiles := { rootfile : option (OneOrMany (option Obj)) }.
Record Container := { rootfiles : option Rootfiles }.

Definition getRootPath (container : Container) : result value :=
  match rootfiles container with
  | None => throw (TypeError "No rootfiles found")
  | Some rfs =>
      match rootfile rfs with
      | None => throw (TypeError "No rootfiles found")
      | Some (One (Some d)) =>
          _ ← MIMEError_unless INFO.CONTAINER_ID (get d "media-type")
                (PString INFO.OEBPS_ID);
          Ok (get d "full-path")
      | Some _ =>
          (* [d] is undefined: an element without attributes, or an array *)
          throw (TypeError "Cannot read properties of undefined")
      end
  end.

(** What [parse] builds: the reader, the container and the root file. *)
Record EpubZipParser (Xml : Type) := {
  zp_reader : Reader.state;
  zp_container : option Container;
  zp_root_path : value;
  zp_root_xml : Xml
}.
Arguments zp_reader {Xml} _.
Arguments zp_container {Xml} _.
Arguments zp_root_path {Xml} _.
Arguments zp_root_xml {Xml} _.

Section Parse.
(** The XML converter ([xml2jsCompact] of the package xml-js) is taken as
    given: it may throw, and [xml_container] reads the member [container]
    of its result, [None] for [undefined]. *)
Context {Xml : Type}.
Context (xml2js : string → result Xml) (xml_container : Xml → option Container).
Context `{Platform}.

Section WithReaderLike.
Context {R : Type} `{ReaderLike R}.

Definition parseContainer (rd : R) : result (option Container) * R :=
  let '(r, rd') := read INFO.CONTAINER_ID None rd in
  (maybeContainer ← r;
   x ← xml2js (trim (data_toString (data maybeContainer)));
   Ok (xml_container x),
   rd').

Definition handleRootfile (root_path : value) (rd : R) : result Xml * R :=
  match as_string "name" root_path with
  | inl e => (throw e, rd)
  | inr name =>
      let '(r, rd') := read name None rd in
      (entry ← r; xml2js (data_toString (data entry)), rd')
  end.
End WithReaderLike.

(** Wraps [Reader] with an object that can convert between zip, xml and js
    and that holds the root path of the zip and the epub's root xml.  The
    second component is the reader as the call leaves it, also when it
    throws. *)
Definition parse (b : list Entry)
  : result (EpubZipParser Xml) * Reader.state :=
  let '(r0, rd0) := read_blob b in
  match r0 with
  | inl e => (throw e, rd0)
  | inr _ =>
      let '(rc, rd1) := parseContainer rd0 in
      match rc with
      | inl e => (throw e, rd1)
      | inr c =>
          match
            match c with
            | Some c' => getRootPath c'
            | None => throw (TypeError "Cannot read properties of undefined")
            end
          with
          | inl e => (throw e, rd1)
          | inr path =>
              let '(rx, rd2) := handleRootfile path rd1 in
              (xml ← rx;
               Ok {| zp_reader := rd2; zp_container := c;
                     zp_root_path := path; zp_root_xml := xml |},
               rd2)
          end
      end
  end.
End Parse.

(** ** Vocabulary of the statements *)

(** The id an [<itemref>] points to, as a key of the manifest. *)
Definition idref (e : ItemRef) : string :=
  toString (get (ir_attributes e) "idref").

(** The [<itemref>] entries of a raw spine. *)
Definition itemrefs (raw : RawSpine) : list ItemRef :=
  match itemref raw with
  | Some x => toArray x
  | None => []
  end.

(** The entry resolves: the manifest holds an object with an own [id],
    and without an attribute that would shadow the method
    [hasOwnProperty]. *)
Definition resolves (M : Thing) (e : ItemRef) (o : Item) : Prop :=
  M !! idref e = Some (AObj o) ∧ is_Some (o !! "id") ∧
  o !! "hasOwnProperty" = None.


(** [walkSpine] skips the item: [element.id == undefined]. *)
Definition skipped (item : Item) : bool := eq_undefined (get item "id").

(** The [order] values of a table of contents, in insertion order. *)
Definition orders (toc : TableOfContents) : list value :=
  (λ e, get e.2 "order") <$> toc.

(** The positions, counted from [i], of the items that are not skipped. *)
Fixpoint kept_from (i : nat) (items : list Item) : list nat :=
  match items with
  | [] => []
  | item :: rest =>
      (if skipped item then [] else [i]) ++ kept_from (S i) rest
  end.

(** The ids of the items that are not skipped. *)
Definition kept_ids (items : list Item) : list value :=
  (λ item, get item "id") <$> filter (λ item, skipped item = false) items.

(** One chapter per item that is not skipped, numbered by position. *)
Fixpoint chapters (order : Z) (items : list Item) : TableOfContents :=
  match items with
  | [] => []
  | item :: rest =>
      (if skipped item then [] else [(get item "id", element order item)])
        ++ chapters (order + 1) rest
  end.

(** ** Sample inputs *)

Definition ref_to (id : string) : ItemRef :=
  {| ir_attributes := {[ "idref" := VStr id ]} |}.

Definition item_of (id href : string) : Item :=
  {[ "id" := VStr id; "href" := VStr href;
     "media-type" := VStr "application/xhtml+xml" ]}.

(** A manifest with two chapters. *)
Definition manifest_ab : Thing :=
  {[ "a" := AObj (item_of "a" "a.xhtml"); "b" := AObj (item_of "b" "b.xhtml") ]}.

(** [<spine><itemref idref="a"/><itemref idref="b"/></spine>] *)
Definition spine_ab : RawSpine :=
  {| itemref := Some (Many [ref_to "a"; ref_to "b"]); _attributes := None |}.

(** [<spine toc="nav"><itemref idref="a"/><itemref idref="zz"/><itemref idref="b"/></spine>] *)
Definition spine_a_zz_b : RawSpine :=
  {| itemref := Some (Many [ref_to "a"; ref_to "zz"; ref_to "b"]);
     _attributes := Some {[ "toc" := VStr "nav" ]} |}.

(** [<spine contents="x"/>]: no [<itemref>]. *)
Definition spine_contents_only : RawSpine :=
  {| itemref := None; _attributes := Some {[ "contents" := VStr "x" ]} |}.

(** [<item id="a" hasOwnProperty="x"/>] *)
Definition manifest_shadowed : Thing :=
  {[ "a" := AObj {[ "id" := VStr "a"; "hasOwnProperty" := VStr "x" ]} ]}.

Definition spine_a : RawSpine :=
  {| itemref := Some (One (ref_to "a")); _attributes := None |}.

(** [<spine contents="x" _attributes="y" dir="rtl"><itemref idref="a"/></spine>] *)
Definition spine_reserved : RawSpine :=
  {| itemref := Some (One (ref_to "a"));
     _attributes := Some {[ "contents" := VStr "x"; "_attributes" := VStr "y";
                            "dir" := VStr "rtl" ]} |}.

(** A spine object with the given [contents]. *)
Definition spine_of (items : list Item) : Spine :=
  {[ "toc" := FVal (VStr "ncx"); "contents" := FItems items;
     "_attributes" := FObj ∅ ]}.

Definition item_a : Item := item_of "a" "a.xhtml".
Definition item_b : Item := item_of "b" "b.xhtml".

(** An item without any [id]. *)
Definition item_no_id : Item := {[ "href" := VStr "cover.xhtml" ]}.

(** [<item id="c" href="c.xhtml" order="7"/>] *)
Definition item_own_order : Item :=
  {[ "id" := VStr "c"; "href" := VStr "c.xhtml"; "order" := VStr "7" ]}.

(** A host for ASCII names without escapes: [decodeURI] leaves them as
    they are, [toLowerCase] and [trim] act on ASCII. *)
Definition sample_platform : Platform :=
  {| decodeURI := λ s, Ok s;
     toLowerCase := fold_ascii;
     trim := trim_ascii;
     createObjectURL := λ d, "blob:" +:+ data_toString d |}.

(** A package without metadata: an empty manifest, a spine without
    [<itemref>]. *)
Definition empty_package : RootFile unit (list Item) :=
  {| pkg_metadata := ();
     pkg_manifest_item := [];
     pkg_spine := {| itemref := None; _attributes := None |};
     pkg_attributes := ∅ |}.

Definition sample_parseManifest (items : list Item) : Thing :=
  list_to_map ((λ it, (toString (get it "id"), AObj it)) <$> items).

(** Two strategies that come up empty: the nav-map one throws, the
    nav-document one finds no entry. *)
Definition no_navMap (M : Thing) (id : field) (p : unit)
  : result TableOfContents := throw (Error "no ncx").
Definition no_navDoc (M : Thing) (id : field) (p : unit)
  : result TableOfContents := Ok [].

(** A package with one item and a spine that names it. *)
Definition package_a : RootFile unit (list Item) :=
  {| pkg_metadata := ();
     pkg_manifest_item := [item_of "a" "a.xhtml"];
     pkg_spine := {| itemref := Some (One (ref_to "a")); _attributes := None |};
     pkg_attributes := ∅ |}.

(** A parsed document around [manifest_ab], with a freshly built reader
    on an archive of one entry. *)
Definition sample_args : RetrieverArgs unit unit Reader.state :=
  {| parts := {| metadata := (); manifest := manifest_ab;
                 spine := spine_of [item_a; item_b]; flow := ();
                 toc := []; version := VStr "2.0" |};
     parser := {| reader := Reader.new
       [ {| filename := "mimetype"; directory := false;
            content := "application/epub+zip" |} ] |} |}.

(** ** Vocabulary of the further statements *)

(** The name [partialSearch] decodes: one leading slash removed. *)
Definition strip_slash (name : string) : string :=
  match name with
  | String "/" rest => rest
  | _ => name
  end.

(** The test [partialSearch] applies to an entry, [fn] being the decoded
    name in lower case. *)
Definition matches `{Platform} (fn : string) (n : Entry) : bool :=
  if directory n then false
  else
    let nf := toLowerCase (filename n) in
    includes nf fn || includes fn nf.

(** The message of [prepareGet]. *)
Definition not_found (name : string) : exn :=
  Error ("Could not find entry with name " +:+ name +:+
         ", " +:+ String dquote "extracted filename was " +:+ name).

(** The reader after one more call on the zip library. *)
Definition after_call (c : zip_call) (r : Reader.state) : Reader.state :=
  {| Reader.blob := Reader.blob r; Reader.entries := Reader.entries r;
     Reader.container := Reader.container r;
     Reader.calls := Reader.calls r ++ [c] |}.

(** What [getData] yields for an entry and a writer. *)
Definition written (e : Entry) (w : Writer) : Data :=
  match w with
  | BlobWriter t => BlobData t (content e)
  | TextWriter _ => Text (content e)
  end.


(** ** Further sample inputs *)

Definition entry_mimetype : Entry :=
  {| filename := "mimetype"; directory := false;
     content := "application/epub+zip" |}.
Definition entry_container : Entry :=
  {| filename := "META-INF/container.xml"; directory := false;
     content := "<container/>" |}.
Definition entry_opf : Entry :=
  {| filename := "OEBPS/content.opf"; directory := false;
     content := "<package/>" |}.
Definition entry_dir : Entry :=
  {| filename := "OEBPS/"; directory := true; content := "" |}.
Definition entry_a : Entry :=
  {| filename := "OEBPS/a.xhtml"; directory := false; content := "<html/>" |}.
Definition entry_svg : Entry :=
  {| filename := "OEBPS/cover.svg"; directory := false; content := "<svg/>" |}.

Definition sample_archive : list Entry :=
  [entry_mimetype; entry_container; entry_dir; entry_opf; entry_a; entry_svg].

(** The reader [init] leaves on [sample_archive]. *)
Definition sample_reader : Reader.state :=
  (@read_blob sample_platform sample_archive).2.

Definition item_svg : Item :=
  {[ "id" := VStr "cover"; "href" := VStr "/OEBPS/cover.svg";
     "media-type" := VStr "image/svg+xml" ]}.

Definition manifest_book : Thing :=
  {[ "a" := AObj (item_of "a" "OEBPS/a.xhtml"); "cover" := AObj item_svg ]}.

Definition book_args : RetrieverArgs unit unit Reader.state :=
  {| parts := {| metadata := (); manifest := manifest_book;
                 spine := spine_of [item_of "a" "OEBPS/a.xhtml"]; flow := ();
                 toc := []; version := VStr "2.0" |};
     parser := {| reader := sample_reader |} |}.

(** A converter that knows the two documents of [sample_archive]. *)
Definition sample_container : Container :=
  {| rootfiles := Some {| rootfile := Some (One (Some
       {[ "full-path" := VStr "OEBPS/content.opf";
          "media-type" := VStr "application/oebps-package+xml" ]})) |} |}.

Definition sample_xml2js (s : string) : result string := Ok s.

Definition sample_xml_container (x : string) : option Container :=
  if bool_decide (x = "<container/>") then Some sample_container else None.

(** An item the manifest holds under ["c"] although it has no [id]. *)
Definition manifest_no_id : Thing :=
  {[ "a" := AObj item_a; "c" := AObj item_no_id ]}.

Definition spine_a_c : RawSpine :=
  {| itemref := Some (Many [ref_to "a"; ref_to "c"; ref_to "zz"]);
     _attributes := None |}.

(** * Properties *)

(** Case analysis on [x ∈ [a; b; ...]] for a list written out. *)
Ltac each_member H :=
  apply list_elem_of_In in H; simpl in H;
  repeat (destruct H as [<-|H]); [..|destruct H].

(** A list written out has no duplicates: by computation. *)
Ltac nodup_by_computation :=
  apply (bool_decide_unpack (NoDup _)); vm_compute; exact I.

(** ** parseSpine *)

Lemma resolve_Ok M e i o : resolve M e i = Ok o ↔ resolves M e o.
Proof.
  unfold resolve, resolves, index, call_hasOwnProperty, hasOwnProperty.
  fold (idref e).
  destruct (M !! idref e) as [[v|o'|n]|] eqn:E; simpl.
  - split; [by destruct (truthy v)|by intros [[=] _]].
  - destruct (o' !! "hasOwnProperty") eqn:Hh; simpl.
    + split; [done|]. intros ([= ->] & _ & Hn). congruence.
    + case_bool_decide; split.
      * by intros [= ->].
      * by intros ([= ->] & _).
      * done.
      * intros ([= ->] & ? & _). done.
  - split; [done|by intros [[=] _]].
  - case_bool_decide; simpl; (split; [done|by intros [[=] _]]).
Qed.

(** What the callback does when it does not return. *)
Lemma resolve_outcome M e i :
  (∃ o, resolve M e i = Ok o) ∨
  resolve M e i = throw (missing_id i (index M (idref e))) ∨
  (∃ o, index M (idref e) = AObj o ∧ is_Some (o !! "hasOwnProperty") ∧
        resolve M e i = throw (TypeError "l.hasOwnProperty is not a function")).
Proof.
  unfold resolve, call_hasOwnProperty. fold (idref e).
  destruct (index M (idref e)) as [v|o|n]; simpl.
  - right. left. by destruct (truthy v).
  - destruct (o !! "hasOwnProperty") eqn:Hh; simpl.
    + right. right. exists o. by eauto.
    + destruct (hasOwnProperty o "id"); [left; by eauto|right; by left].
  - right. by left.
Qed.

Lemma missing_id_TypeError i l : ∃ msg, missing_id i l = TypeError msg.
Proof.
  unfold missing_id, any_toString. destruct l as [v|o|n]; [by eauto| |by eauto].
  destruct (o !! "toString"); by eauto.
Qed.

Lemma index_absent M k :
  M !! k = None →
  ∃ tail, any_toString (index M k) = Ok tail ∧
          (k ∉ Object_prototype → tail = "undefined").
Proof.
  intros Hk. unfold index. rewrite Hk. case_bool_decide; simpl.
  - by eexists.
  - by exists "undefined".
Qed.

Lemma resolve_absent M e i :
  M !! idref e = None →
  resolve M e i = throw (missing_id i (index M (idref e))).
Proof.
  intros Hk. unfold resolve. fold (idref e). unfold index. rewrite Hk.
  by case_bool_decide.
Qed.

Section map_indexed.
Context {A B : Type} (f : A → nat → result B).

Lemma map_indexed_Ok l i ys :
  map_indexed f l i = Ok ys ↔
  length ys = length l ∧
  ∀ j x, l !! j = Some x → ∃ y, ys !! j = Some y ∧ f x (i + j)%nat = Ok y.
Proof.
  revert i ys. induction l as [|x l IH]; intros i ys; simpl.
  - split.
    + intros [= <-]. split; [done|]. intros j x; by rewrite lookup_nil.
    + intros [Hlen _]. destruct ys; [done|discriminate].
  - destruct (f x i) as [e|y] eqn:Hx; simpl.
    + split; [done|]. intros [_ H]. destruct (H 0%nat x eq_refl) as (y & _ & Hy).
      rewrite Nat.add_0_r in Hy. congruence.
    + destruct (map_indexed f l (S i)) as [e|ys'] eqn:Hl; simpl.
      * split; [done|]. intros [Hlen H]. destruct ys as [|y' ys]; [done|].
        assert (map_indexed f l (S i) = Ok ys) as Hc; [|congruence].
        apply IH. split; [simpl in Hlen; lia|].
        intros j x' Hj. destruct (H (S j) x' Hj) as (y'' & ? & ?).
        exists y''. split; [done|]. by replace (S i + j)%nat with (i + S j)%nat by lia.
      * apply IH in Hl as [Hlen H]. split.
        -- intros [= <-]. split; [simpl; lia|].
           intros [|j] x' Hj; simpl in *.
           ++ injection Hj as <-. exists y. by rewrite Nat.add_0_r.
           ++ destruct (H j x' Hj) as (y'' & ? & ?). exists y''.
              split; [done|]. by replace (i + S j)%nat with (S i + j)%nat by lia.
        -- intros [Hlen' H']. destruct ys as [|y' ys]; [done|].
           destruct (H' 0%nat x eq_refl) as (y'' & [= <-] & Hy).
           rewrite Nat.add_0_r in Hy. assert (y' = y) as -> by congruence.
           f_equal. f_equal. apply list_eq. intros j.
           destruct (l !! j) as [x'|] eqn:Hj.
           ++ destruct (H j x' Hj) as (y1 & -> & Hy1).
              destruct (H' (S j) x' Hj) as (y2 & Hy2 & Hy2'). simpl in Hy2.
              rewrite Hy2. replace (i + S j)%nat with (S i + j)%nat in Hy2' by lia.
              congruence.
           ++ apply lookup_ge_None in Hj.
              rewrite !(proj2 (lookup_ge_None _ _)); [done|simpl in *; lia..].
Qed.

(** The first callback that throws decides the outcome. *)
Lemma map_indexed_throw l i k x e :
  l !! k = Some x →
  (∀ j x', (j < k)%nat → l !! j = Some x' → ∃ y, f x' (i + j)%nat = Ok y) →
  f x (i + k)%nat = throw e →
  map_indexed f l i = throw e.
Proof.
  revert i k. induction l as [|x0 l IH]; intros i k Hk Hbefore Hx; [done|].
  destruct k as [|k]; simpl in *.
  - injection Hk as ->. rewrite Nat.add_0_r in Hx. by rewrite Hx.
  - destruct (Hbefore 0%nat x0 ltac:(lia) eq_refl) as [y Hy].
    rewrite Nat.add_0_r in Hy. rewrite Hy. simpl.
    rewrite (IH (S i) k Hk); [done| |].
    + intros j x' Hj Hl. destruct (Hbefore (S j) x' ltac:(lia) Hl) as [y' Hy'].
      exists y'. by replace (S i + j)%nat with (i + S j)%nat by lia.
    + by replace (S i + k)%nat with (i + S k)%nat by lia.
Qed.

Lemma map_indexed_total l i :
  (∀ j x, l !! j = Some x → ∃ y, f x (i + j)%nat = Ok y) →
  ∃ ys, map_indexed f l i = Ok ys.
Proof.
  revert i. induction l as [|x l IH]; intros i H; simpl; [by eauto|].
  destruct (H 0%nat x eq_refl) as [y Hy]. rewrite Nat.add_0_r in Hy.
  rewrite Hy. simpl. destruct (IH (S i)) as [ys ->]; [|by eauto].
  intros j x' Hj. destruct (H (S j) x' Hj) as [y' Hy'].
  exists y'. by replace (S i + j)%nat with (i + S j)%nat by lia.
Qed.
End map_indexed.

(** The object [s] before [contents] is assigned. *)
Lemma spine_defaults_lookup (attrs : Obj) (k : string) :
  (<["_attributes" := FObj ∅]>
     ((FVal <$> attrs) ∪ {[ "toc" := FVal (VStr "ncx"); "contents" := FItems [] ]})
   : Spine) !! k =
  if decide (k = "_attributes") then Some (FObj ∅)
  else match attrs !! k with
       | Some v => Some (FVal v)
       | None =>
           if decide (k = "toc") then Some (FVal (VStr "ncx"))
           else if decide (k = "contents") then Some (FItems []) else None
       end.
Proof.
  rewrite lookup_insert. repeat case_decide; try congruence.
  all: rewrite lookup_union, lookup_fmap.
  all: destruct (attrs !! k) as [v|]; simpl.
  all: try (by destruct (_ !! k)).
  all: rewrite (left_id_L None (∪)); subst; simplify_map_eq; done.
Qed.

Lemma parseSpine_itemref raw M x :
  itemref raw = Some x →
  parseSpine raw M =
    (contents ← map_indexed (resolve M) (toArray x) 0%nat;
     Ok (<["contents" := FItems contents]>
           (<["_attributes" := FObj ∅]>
              ((FVal <$> default ∅ (_attributes raw))
                 ∪ {[ "toc" := FVal (VStr "ncx"); "contents" := FItems [] ]})))).
Proof. unfold parseSpine. by intros ->. Qed.

Lemma parseSpine_no_itemref raw M :
  itemref raw = None →
  parseSpine raw M =
    Ok (<["_attributes" := FObj ∅]>
          ((FVal <$> default ∅ (_attributes raw))
             ∪ {[ "toc" := FVal (VStr "ncx"); "contents" := FItems [] ]})).
Proof. unfold parseSpine. by intros ->. Qed.

(** C1 (as the code has it).  When the raw spine has an [itemref]
    member, or no attribute named [contents], and every [<itemref>]
    resolves in the manifest to an object carrying an [id],
    [parseSpine] returns a spine whose [contents] has one element per
    [<itemref>], in the same order, the element at each index being the
    manifest entry its [idref] names.  (Without [itemref], an attribute
    named [contents] replaces the default empty array.) *)
Theorem parseSpine_contents_resolved (M : Thing) (raw : RawSpine) :
  is_Some (itemref raw) ∨ default ∅ (_attributes raw) !! "contents" = None →
  (∀ e, e ∈ itemrefs raw → ∃ o, resolves M e o) →
  ∃ s items,
    parseSpine raw M = Ok s ∧
    s !! "contents" = Some (FItems items) ∧
    length items = length (itemrefs raw) ∧
    ∀ i e, itemrefs raw !! i = Some e →
      ∃ o, items !! i = Some o ∧ M !! idref e = Some (AObj o).
Proof.
  intros Hshape Hall. unfold itemrefs in *.
  destruct (itemref raw) as [x|] eqn:Hx.
  - rewrite (parseSpine_itemref _ _ _ Hx).
    destruct (map_indexed_total (resolve M) (toArray x) 0) as [items Hitems].
    { intros j e Hj. destruct (Hall e) as [o Ho]; [by eapply list_elem_of_lookup_2|].
      exists o. by apply resolve_Ok. }
    rewrite Hitems. simpl. eexists _, items. split; [done|].
    split; [by rewrite lookup_insert_eq|].
    apply map_indexed_Ok in Hitems as [Hlen Hitems]. split; [done|].
    intros i e Hi. destruct (Hitems i e Hi) as (o & Ho & Hr).
    exists o. split; [done|]. by apply resolve_Ok in Hr as [? _].
  - destruct Hshape as [[? [=]]|Hno].
    rewrite (parseSpine_no_itemref _ _ Hx). eexists _, []. split; [done|].
    split; [|split; [done|by intros i e; rewrite lookup_nil]].
    rewrite spine_defaults_lookup, Hno. done.
Qed.

Lemma parseSpine_contents_resolved_witness :
  ∃ s items,
    parseSpine spine_ab manifest_ab = Ok s ∧
    s !! "contents" = Some (FItems items) ∧
    length items = length (itemrefs spine_ab) ∧
    ∀ i e, itemrefs spine_ab !! i = Some e →
      ∃ o, items !! i = Some o ∧ manifest_ab !! idref e = Some (AObj o).
Proof.
  apply (parseSpine_contents_resolved manifest_ab spine_ab).
  - left. by eexists.
  - intros e He. each_member He;
      eexists; (split; [vm_compute; reflexivity|]);
      (split; [by eexists|vm_compute; reflexivity]).
Defined.

(** C1, as stated, fails: a raw spine without [<itemref>] and with an
    attribute [contents] has no entry that fails to resolve, and the
    [contents] returned is that attribute, a string, not a sequence of
    no elements.  (And an item found with its [id] makes the call throw
    when it also has an attribute named [hasOwnProperty], which the
    guard then calls.) *)
Lemma parseSpine_contents_replaced :
  (itemrefs spine_contents_only = [] ∧
   parseSpine spine_contents_only manifest_ab =
     Ok {[ "toc" := FVal (VStr "ncx"); "contents" := FVal (VStr "x");
           "_attributes" := FObj ∅ ]}) ∧
  (index manifest_shadowed (idref (ref_to "a"))
     = AObj {[ "id" := VStr "a"; "hasOwnProperty" := VStr "x" ]} ∧
   ∃ msg, parseSpine spine_a manifest_shadowed = throw (TypeError msg)).
Proof.
  split; split; try (vm_compute; reflexivity).
  eexists. vm_compute. reflexivity.
Qed.

(** C5.  When the [<itemref>] at index [k] names an id the manifest does
    not hold and every earlier one resolves, [parseSpine] throws the
    [TypeError] whose message names index [k], followed by the lookup
    result as the template literal prints it: [undefined], unless the id
    is the name of a member every object inherits. *)
Theorem parseSpine_dangling (M : Thing) (raw : RawSpine) (k : nat) (e : ItemRef) :
  itemrefs raw !! k = Some e →
  M !! idref e = None →
  (∀ j e', (j < k)%nat → itemrefs raw !! j = Some e' → ∃ o, resolves M e' o) →
  ∃ tail,
    parseSpine raw M =
      throw (TypeError ("Missing id at index " +:+ pretty k +:+ " | item, "
                        +:+ tail)) ∧
    (idref e ∉ Object_prototype → tail = "undefined").
Proof.
  intros Hk Habsent Hbefore. unfold itemrefs in *.
  destruct (itemref raw) as [x|] eqn:Hx; [|by rewrite lookup_nil in Hk].
  rewrite (parseSpine_itemref _ _ _ Hx).
  destruct (index_absent M (idref e) Habsent) as (tail & Htail & Hundef).
  exists tail. split; [|done].
  rewrite (map_indexed_throw (resolve M) (toArray x) 0 k e
             (missing_id k (index M (idref e)))); [|done| |].
  - unfold missing_id. by rewrite Htail.
  - intros j e' Hj He'. destruct (Hbefore j e' Hj He') as [o Ho].
    exists o. by apply resolve_Ok.
  - by apply resolve_absent.
Qed.

Lemma parseSpine_dangling_witness :
  parseSpine spine_a_zz_b manifest_ab =
    throw (TypeError "Missing id at index 1 | item, undefined").
Proof.
  destruct (parseSpine_dangling manifest_ab spine_a_zz_b 1 (ref_to "zz"))
    as (tail & -> & Htail).
  - reflexivity.
  - vm_compute; reflexivity.
  - intros j e' Hj He'. destruct j as [|j]; [|lia].
    injection He' as <-. eexists; split; [vm_compute; reflexivity|].
    split; [by eexists|vm_compute; reflexivity].
  - rewrite Htail; [reflexivity|].
    refine (proj1 (bool_decide_eq_false
              (idref (ref_to "zz") ∈ Object_prototype)) _).
    vm_compute. reflexivity.
Defined.




(** C8 (as the code has it).  The returned spine has [toc] equal to the
    raw [toc] attribute when there is one and to ["ncx"] otherwise, its
    [_attributes] is the empty object, and every attribute of the raw
    spine is a top-level field of it with the same value, except an
    attribute named [_attributes], and one named [contents] when the raw
    spine has an [itemref] member: these two fields are written after the
    attributes have been spread. *)
Theorem parseSpine_attributes (M : Thing) (raw : RawSpine) (s : Spine) :
  parseSpine raw M = Ok s →
  s !! "toc" =
    Some (FVal (default (VStr "ncx") (default ∅ (_attributes raw) !! "toc"))) ∧
  s !! "_attributes" = Some (FObj ∅) ∧
  ∀ k v, default ∅ (_attributes raw) !! k = Some v →
    k ≠ "_attributes" →
    (k = "contents" → itemref raw = None) →
    s !! k = Some (FVal v).
Proof.
  intros Hs.
  assert (∃ s0 : Spine,
    (∀ k, s0 !! k =
       if decide (k = "_attributes") then Some (FObj ∅)
       else match default ∅ (_attributes raw) !! k with
            | Some v => Some (FVal v)
            | None =>
                if decide (k = "toc") then Some (FVal (VStr "ncx"))
                else if decide (k = "contents") then Some (FItems []) else None
            end) ∧
    (s = s0 ∧ itemref raw = None ∨
     ∃ c, s = <["contents" := FItems c]> s0 ∧ is_Some (itemref raw)))
    as (s0 & Hs0 & Hcase).
  { eexists. split; [intros k; apply spine_defaults_lookup|].
    unfold parseSpine in Hs. destruct (itemref raw) as [x|].
    - destruct (map_indexed _ _ _) as [?|c]; [done|]. simpl in Hs.
      injection Hs as <-. right. by eauto.
    - injection Hs as <-. by left. }
  assert (∀ k, k ≠ "contents" → s !! k = s0 !! k) as Hother.
  { intros k Hk. destruct Hcase as [[-> _]|(c & -> & _)]; [done|].
    by rewrite lookup_insert_ne. }
  split; [|split].
  - rewrite Hother, Hs0 by done. rewrite decide_False by done.
    destruct (_ !! "toc"); [done|]. by rewrite decide_True.
  - rewrite Hother, Hs0 by done. by rewrite decide_True.
  - intros k v Hk Hne Hcontents.
    assert (s !! k = s0 !! k) as ->.
    { destruct (decide (k = "contents")) as [->|]; [|by apply Hother].
      destruct Hcase as [[-> _]|(c & _ & [? Hsome])]; [done|].
      rewrite Hcontents in Hsome; done. }
    rewrite Hs0, decide_False, Hk by done. done.
Qed.

Lemma parseSpine_attributes_witness :
  ∃ s, parseSpine spine_reserved manifest_ab = Ok s ∧
       s !! "toc" = Some (FVal (VStr "ncx")) ∧
       s !! "_attributes" = Some (FObj ∅) ∧
       s !! "dir" = Some (FVal (VStr "rtl")).
Proof.
  destruct (parseSpine spine_reserved manifest_ab) as [e|s] eqn:Hs;
    [vm_compute in Hs; discriminate|].
  exists s. split; [done|].
  destruct (parseSpine_attributes manifest_ab spine_reserved s Hs)
    as (Htoc & Hattrs & Hrest).
  split; [exact Htoc|]. split; [exact Hattrs|].
  apply Hrest; [vm_compute; reflexivity|done|done].
Defined.

(** C8, as stated, fails: the attributes [contents] and [_attributes] of
    the raw spine are not fields of the result. *)
Lemma parseSpine_reserved_attributes :
  default ∅ (_attributes spine_reserved) !! "contents" = Some (VStr "x") ∧
  default ∅ (_attributes spine_reserved) !! "_attributes" = Some (VStr "y") ∧
  parseSpine spine_reserved manifest_ab =
    Ok {[ "toc" := FVal (VStr "ncx");
          "contents" := FItems [item_of "a" "a.xhtml"];
          "dir" := FVal (VStr "rtl");
          "_attributes" := FObj ∅ ]}.
Proof. repeat split; vm_compute; reflexivity. Qed.

(** ** walkSpine *)

Lemma get_element_id order item : get (element order item) "id" = get item "id".
Proof.
  unfold element, get. rewrite lookup_union.
  destruct (item !! "id"); simpl; by simplify_map_eq.
Qed.

Lemma get_element_order order item :
  get (element order item) "order" = default (VNum order) (item !! "order").
Proof.
  unfold element, get. rewrite lookup_union.
  destruct (item !! "order"); simpl; by simplify_map_eq.
Qed.

Lemma get_element_title order item :
  get (element order item) "title" = default (get item "id") (item !! "title").
Proof.
  unfold element, get. rewrite lookup_union.
  destruct (item !! "title"); simpl; by simplify_map_eq.
Qed.

Lemma walk_step_eq order toc item :
  walk_step (order, toc) item =
    (order + 1,
     if skipped item then toc
     else toc_set (get item "id") (element order item) toc).
Proof.
  unfold walk_step, skipped. rewrite get_element_id.
  by destruct (eq_undefined _).
Qed.

Lemma toc_set_fresh k c toc : k ∉ toc_keys toc → toc_set k c toc = toc ++ [(k, c)].
Proof.
  unfold toc_keys. induction toc as [|[k' c'] toc IH]; simpl; [done|].
  intros Hk. apply not_elem_of_cons in Hk as [Hne Hk].
  rewrite decide_False by done. by rewrite IH.
Qed.

Lemma toc_set_keys k c toc k' :
  k' ∈ toc_keys (toc_set k c toc) ↔ k' = k ∨ k' ∈ toc_keys toc.
Proof.
  unfold toc_keys. induction toc as [|[k0 c0] toc IH]; simpl.
  - rewrite elem_of_cons, elem_of_nil. tauto.
  - case_decide; subst; simpl; rewrite !elem_of_cons; [tauto|].
    rewrite IH. tauto.
Qed.

(** The keys after the loop: those there before, and the ids of the
    items that were not skipped. *)
Lemma walk_keys items order toc k :
  k ∈ toc_keys (foldl walk_step (order, toc) items).2 ↔
  k ∈ toc_keys toc ∨
  ∃ item, item ∈ items ∧ get item "id" = k ∧ eq_undefined k = false.
Proof.
  revert order toc. induction items as [|item items IH]; intros order toc;
    cbn [foldl].
  - split; [by left|]. intros [?|(? & []%elem_of_nil & _)]; done.
  - rewrite walk_step_eq, IH. unfold skipped.
    destruct (eq_undefined (get item "id")) eqn:Hid.
    + split; (intros [?|(it & Hit & <- & ?)]; [by left|right]).
      * exists it. by rewrite elem_of_cons; auto.
      * apply elem_of_cons in Hit as [->|Hit]; [congruence|by eauto].
    + rewrite toc_set_keys. split.
      * intros [[->|?]|(it & Hit & <- & ?)]; [right|by left|right].
        -- exists item. by rewrite elem_of_cons; auto.
        -- exists it. by rewrite elem_of_cons; auto.
      * intros [?|(it & Hit & <- & ?)]; [by auto|].
        apply elem_of_cons in Hit as [->|Hit]; [by auto|right; by eauto].
Qed.

Lemma toc_keys_chapters order items : toc_keys (chapters order items) = kept_ids items.
Proof.
  unfold toc_keys, kept_ids. revert order.
  induction items as [|item items IH]; intros order; simpl; [done|].
  rewrite fmap_app, IH, filter_cons. destruct (skipped item) eqn:Hs.
  - by rewrite decide_False by congruence.
  - by rewrite decide_True by done.
Qed.

(** With pairwise distinct ids no [set] overwrites an entry, and the
    loop appends one chapter per item that is not skipped. *)
Lemma walk_distinct items order toc :
  NoDup (toc_keys toc ++ kept_ids items) →
  foldl walk_step (order, toc) items =
    (order + Z.of_nat (length items), toc ++ chapters order items).
Proof.
  revert order toc. induction items as [|item items IH]; intros order toc Hnd;
    cbn [foldl length chapters].
  - by rewrite Z.add_0_r, app_nil_r.
  - rewrite walk_step_eq. unfold kept_ids in Hnd. rewrite filter_cons in Hnd.
    destruct (skipped item) eqn:Hs.
    + rewrite decide_False in Hnd by congruence. rewrite IH by done.
      f_equal. lia.
    + rewrite decide_True in Hnd by done. rewrite fmap_cons in Hnd.
      assert (get item "id" ∉ toc_keys toc) as Hfresh.
      { apply NoDup_app in Hnd as (_ & Hdisj & _). intros Hin.
        apply (Hdisj _ Hin). by left. }
      rewrite toc_set_fresh by done. rewrite IH.
      * f_equal; [lia|]. by rewrite <- app_assoc.
      * unfold toc_keys. rewrite fmap_app. simpl. rewrite <- app_assoc. done.
Qed.

Lemma orders_chapters i items :
  (∀ item, item ∈ items → item !! "order" = None) →
  orders (chapters (Z.of_nat i) items) =
    (λ j, VNum (Z.of_nat j)) <$> kept_from i items.
Proof.
  unfold orders. revert i. induction items as [|item items IH]; intros i Hno; simpl; [done|].
  rewrite !fmap_app. replace (Z.of_nat i + 1) with (Z.of_nat (S i)) by lia.
  rewrite IH by (intros it Hit; apply Hno; by right).
  destruct (skipped item); simpl; [done|].
  rewrite get_element_order, Hno by (by left). done.
Qed.

Lemma kept_from_spec i items j :
  j ∈ kept_from i items ↔
  (i ≤ j)%nat ∧ ∃ item, items !! (j - i)%nat = Some item ∧ skipped item = false.
Proof.
  revert i. induction items as [|item items IH]; intros i; simpl.
  - rewrite elem_of_nil. split; [done|]. by intros (_ & ? & [=] & _).
  - rewrite elem_of_app, IH. split.
    + intros [Hj|(Hle & it & Hit & Hs)].
      * destruct (skipped item) eqn:Hs; [by apply elem_of_nil in Hj|].
        apply list_elem_of_singleton in Hj as ->. split; [lia|].
        exists item. by rewrite Nat.sub_diag.
      * split; [lia|]. exists it. split; [|done].
        by replace (j - i)%nat with (S (j - S i)) by lia.
    + intros (Hle & it & Hit & Hs). destruct (decide (j = i)) as [->|Hne].
      * left. rewrite Nat.sub_diag in Hit. injection Hit as ->.
        rewrite Hs. by apply list_elem_of_singleton.
      * right. split; [lia|]. exists it. split; [|done].
        by replace (j - i)%nat with (S (j - S i)) in Hit by lia.
Qed.

Lemma kept_from_sorted i items : StronglySorted lt (kept_from i items).
Proof.
  revert i. induction items as [|item items IH]; intros i; simpl; [constructor|].
  destruct (skipped item); simpl; [done|]. constructor; [done|].
  apply Forall_forall. intros j Hj. apply kept_from_spec in Hj. lia.
Qed.

Lemma kept_from_all i items :
  (∀ item, item ∈ items → skipped item = false) →
  kept_from i items = seq i (length items).
Proof.
  revert i. induction items as [|item items IH]; intros i Hall; simpl; [done|].
  rewrite Hall by (by left). simpl. f_equal. apply IH.
  intros it Hit. apply Hall. by right.
Qed.

Lemma chapters_all order items :
  (∀ item, item ∈ items → skipped item = false) →
  chapters order items =
    imap (λ i item, (get item "id", element (order + Z.of_nat i) item)) items.
Proof.
  revert order. induction items as [|item items IH]; intros order Hall; simpl; [done|].
  rewrite Hall by (by left). simpl. rewrite Z.add_0_r. f_equal.
  rewrite IH by (intros it Hit; apply Hall; by right).
  apply imap_ext. intros j it _. simpl. do 2 f_equal. lia.
Qed.

Lemma walkSpine_array spine items :
  spine !! "contents" = Some (FItems items) → walkSpine spine = Ok (walk items).
Proof. unfold walkSpine. by intros ->. Qed.

Lemma walk_chapters items :
  NoDup (kept_ids items) → walk items = chapters 0 items.
Proof.
  intros Hnd. unfold walk. by rewrite walk_distinct.
Qed.

(** C3 (as the code has it).  When the items carry no [order] property
    of their own and the ids of the items that are not skipped are
    pairwise distinct, the [order] values of the table of contents, in
    insertion order, are the positions in [spine.contents] of the items
    that were not skipped: strictly increasing, and [0, 1, 2, ...]
    without gaps when no item is skipped.  The counter also advances on
    a skipped item. *)
Theorem walkSpine_orders (spine : Spine) (items : list Item) :
  spine !! "contents" = Some (FItems items) →
  (∀ item, item ∈ items → item !! "order" = None) →
  NoDup (kept_ids items) →
  ∃ toc,
    walkSpine spine = Ok toc ∧
    orders toc = (λ i, VNum (Z.of_nat i)) <$> kept_from 0 items ∧
    StronglySorted lt (kept_from 0 items) ∧
    (∀ i, i ∈ kept_from 0 items ↔
          ∃ item, items !! i = Some item ∧ skipped item = false) ∧
    ((∀ item, item ∈ items → skipped item = false) →
     orders toc = (λ i, VNum (Z.of_nat i)) <$> seq 0 (length items)).
Proof.
  intros Hc Hno Hnd. exists (walk items). split; [by apply walkSpine_array|].
  rewrite walk_chapters by done.
  assert (orders (chapters 0 items) =
            (λ i, VNum (Z.of_nat i)) <$> kept_from 0 items) as Ho
    by exact (orders_chapters 0 items Hno).
  split; [done|]. split; [apply kept_from_sorted|]. split.
  - intros i. rewrite kept_from_spec, Nat.sub_0_r. split; [by intros [_ ?]|].
    intros ?; split; [lia|done].
  - intros Hall. by rewrite Ho, kept_from_all.
Qed.

Lemma walkSpine_orders_witness :
  ∃ toc,
    walkSpine (spine_of [item_a; item_no_id; item_b]) = Ok toc ∧
    orders toc = [VNum 0; VNum 2].
Proof.
  destruct (walkSpine_orders (spine_of [item_a; item_no_id; item_b])
              [item_a; item_no_id; item_b]) as (toc & Htoc & Ho & _).
  - reflexivity.
  - intros item Hi. each_member Hi; vm_compute; reflexivity.
  - nodup_by_computation.
  - exists toc. split; [exact Htoc|exact Ho].
Defined.

(** C3, as stated, fails in three ways: a skipped item leaves a gap (the
    only chapter below has order 1); an id that comes twice keeps its
    place and takes the later order; an [order] attribute of the item
    replaces the position. *)
Lemma gap_after_skipped_item :
  (∃ toc, walkSpine (spine_of [item_no_id; item_a]) = Ok toc ∧
          orders toc = [VNum 1]) ∧
  (∃ toc, walkSpine (spine_of [item_a; item_b; item_a]) = Ok toc ∧
          orders toc = [VNum 2; VNum 1]) ∧
  (∃ toc, walkSpine (spine_of [item_own_order]) = Ok toc ∧
          orders toc = [VStr "7"]).
Proof. repeat split; eexists; split; vm_compute; reflexivity. Qed.

(** C4 (as the code has it).  When the [N] items of [spine.contents] all
    have an id that is neither [undefined] nor [null], and these ids are
    pairwise distinct, the table of contents has exactly [N] entries, the
    one at position [i] keyed by the id of item [i]; its [order] is [i]
    and its [title] the item's id, unless the item has a property of that
    name, which then is kept. *)
Theorem walkSpine_all_ids_defined (spine : Spine) (items : list Item) :
  spine !! "contents" = Some (FItems items) →
  (∀ item, item ∈ items → eq_undefined (get item "id") = false) →
  NoDup ((λ item, get item "id") <$> items) →
  ∃ toc,
    walkSpine spine = Ok toc ∧
    length toc = length items ∧
    ∀ (i : nat) item, items !! i = Some item →
      ∃ ch, toc !! i = Some (get item "id", ch) ∧
            get ch "order" = default (VNum (Z.of_nat i)) (item !! "order") ∧
            get ch "title" = default (get item "id") (item !! "title").
Proof.
  intros Hc Hdef Hnd. exists (walk items). split; [by apply walkSpine_array|].
  assert (filter (λ item, skipped item = false) items = items) as Hf.
  { clear Hnd Hc. induction items as [|it items IH]; [done|].
    rewrite filter_cons, decide_True by (apply Hdef; by left).
    rewrite IH; [done|]. intros ? ?. apply Hdef. by right. }
  rewrite walk_chapters by (unfold kept_ids; by rewrite Hf).
  rewrite chapters_all by done. split; [by rewrite length_imap|].
  intros i item Hi. eexists. rewrite list_lookup_imap, Hi. simpl.
  split; [done|]. by rewrite get_element_order, get_element_title, Z.add_0_l.
Qed.

Lemma walkSpine_all_ids_defined_witness :
  ∃ toc,
    walkSpine (spine_of [item_a; item_own_order]) = Ok toc ∧
    length toc = 2%nat ∧
    ∀ (i : nat) item, [item_a; item_own_order] !! i = Some item →
      ∃ ch, toc !! i = Some (get item "id", ch) ∧
            get ch "order" = default (VNum (Z.of_nat i)) (item !! "order") ∧
            get ch "title" = default (get item "id") (item !! "title").
Proof.
  apply (walkSpine_all_ids_defined (spine_of [item_a; item_own_order])
           [item_a; item_own_order]).
  - reflexivity.
  - intros item Hi. each_member Hi; vm_compute; reflexivity.
  - nodup_by_computation.
Defined.

(** C4, as stated, fails: two items with the same id give one entry, and
    an [order] attribute of the item replaces the position. *)
Lemma walkSpine_fewer_entries :
  (∀ item, item ∈ [item_a; item_a] → eq_undefined (get item "id") = false) ∧
  (∃ toc, walkSpine (spine_of [item_a; item_a]) = Ok toc ∧ length toc = 1%nat) ∧
  (∃ toc, walkSpine (spine_of [item_own_order]) = Ok toc ∧
          orders toc = [VStr "7"]).
Proof.
  split; [|split; eexists; split; vm_compute; reflexivity].
  intros item Hi. each_member Hi; vm_compute; reflexivity.
Qed.

(** C7.  [walkSpine] returns on every array of items, and the keys of
    the table it returns are exactly the ids of the items whose id is
    neither [undefined] nor [null]: [undefined] is never a key, and an
    item without id adds no entry and raises no error. *)
Theorem walkSpine_keys_defined (spine : Spine) (items : list Item) :
  spine !! "contents" = Some (FItems items) →
  ∃ toc,
    walkSpine spine = Ok toc ∧
    (VUndefined ∉ toc_keys toc) ∧
    ∀ k, k ∈ toc_keys toc ↔
         ∃ item, item ∈ items ∧ get item "id" = k ∧ eq_undefined k = false.
Proof.
  intros Hc. exists (walk items). split; [by apply walkSpine_array|].
  assert (∀ k, k ∈ toc_keys (walk items) ↔
               ∃ item, item ∈ items ∧ get item "id" = k ∧ eq_undefined k = false)
    as Hkeys.
  { intros k. unfold walk. rewrite walk_keys. split; [|by right].
    intros [[]%elem_of_nil|?]; done. }
  split; [|done]. intros (item & _ & _ & Hu)%Hkeys. done.
Qed.

Lemma walkSpine_keys_defined_witness :
  ∃ toc,
    walkSpine (spine_of [item_no_id; item_a]) = Ok toc ∧
    (VUndefined ∉ toc_keys toc) ∧
    ∀ k, k ∈ toc_keys toc ↔
         ∃ item, item ∈ [item_no_id; item_a] ∧ get item "id" = k ∧
                 eq_undefined k = false.
Proof.
  apply (walkSpine_keys_defined (spine_of [item_no_id; item_a])). reflexivity.
Defined.

(** ** Reader *)

(** C10.  On a blob without entries [init] lists the entries, closes the
    zip and throws [Error("Empty archive!")]: no entry is read, so
    neither the MIME signature nor the container is looked at, and
    [container] stays as it was. *)
Theorem init_empty_archive `{Platform} (r : Reader.state) :
  Reader.blob r = [] →
  Reader.init r =
    (throw (Error "Empty archive!"),
     {| Reader.blob := []; Reader.entries := [];
        Reader.container := Reader.container r;
        Reader.calls := Reader.calls r ++ [GetEntries; Close] |}).
Proof.
  intros Hb. unfold Reader.init, Reader.getEntries, Reader.set_entries,
    Reader.close, Reader.call, Reader.this_entries, Reader.raise,
    mbind, Reader.io_bind.
  simpl. rewrite Hb. simpl. by rewrite <- app_assoc.
Qed.

Lemma init_empty_archive_witness :
  @read_blob sample_platform [] =
    (throw (Error "Empty archive!"),
     {| Reader.blob := []; Reader.entries := []; Reader.container := None;
        Reader.calls := [GetEntries; Close] |}).
Proof.
  unfold read_blob.
  exact (@init_empty_archive sample_platform (Reader.new []) eq_refl).
Defined.

(** ** Retriever *)

(** For an id the manifest does not hold, and that is not the name of a
    member every object inherits, [getContent] and [getImage] throw the
    [UnknownItemError] naming that id, and the parsed document and the
    reader are as they were before the call. *)
Lemma unknown_item_error `{Platform} {Metadata Flow R : Type}
    `{ReaderLike R} (a : RetrieverArgs Metadata Flow R) (id : string) :
  manifest (parts a) !! id = None →
  id ∉ Object_prototype →
  getContent id a =
    (throw (UnknownItemError ("Unkown manifest item: " +:+ id)), a) ∧
  getImage id a =
    (throw (UnknownItemError ("Unkown manifest item: " +:+ id)), a).
Proof.
  intros Hid Hown. unfold getContent, getImage, searchManifestOrPanic, index.
  rewrite Hid, bool_decide_false by done. simpl. done.
Qed.

(** C9.  The claim asks for an [UnknownItemError] on every id the
    manifest does not hold.  For the id ["constructor"], which
    [manifest_ab] does not hold, the lookup [parts.manifest[id]] finds
    the member inherited from [Object.prototype], the test
    [l === undefined] lets it through, and [getContent] fails on the
    media type instead; the parts are unchanged. *)
Theorem retrieval_inherited_name :
  manifest (parts sample_args) !! "constructor" = None ∧
  @searchManifestOrPanic _ _ _ sample_args "constructor"
    = Ok (AInherited "constructor") ∧
  @getContent _ _ _ (@Reader.reader_like sample_platform) "constructor"
    sample_args
    = (throw (MIMEError "constructor" VUndefined PALLOWED_MIMES), sample_args).
Proof. repeat split; vm_compute; reflexivity. Qed.

(** ** parseRootFile and open *)

Section RootFileFacts.
Context {RawMetadata Metadata RawItems Flow Parser Blob : Type}.
Context (parseMetadata : RawMetadata → Metadata)
        (parseManifest : RawItems → Thing)
        (parseFlow : field → Flow)
        (parseTOC : Thing → field → Parser → result (option TableOfContents))
        (createParser : Blob → result Parser)
        (root_xml : Parser → RootFile RawMetadata RawItems).

Lemma parseRootFile_toc pkg parser spine r :
  parseSpine (pkg_spine pkg) (parseManifest (pkg_manifest_item pkg)) = Ok spine →
  parseTOC (parseManifest (pkg_manifest_item pkg)) (prop spine "toc") parser = Ok r →
  match r with
  | None =>
      (parseRootFile parseMetadata parseManifest parseFlow parseTOC pkg parser).2
      = throw (TypeError "NO TOC")
  | Some t =>
      ∃ parts,
        (parseRootFile parseMetadata parseManifest parseFlow parseTOC pkg parser).2
        = Ok parts ∧ toc parts = t
  end.
Proof.
  intros Hs Ht. unfold parseRootFile. rewrite Hs, Ht.
  destruct r; simpl; [by eexists|done].
Qed.

(** The guard of [parseRootFile]: once the parser is built and the spine
    parsed, opening fails with [TypeError("NO TOC")] when [parseTOC]
    resolves to no table of contents, and returns the parts with the
    table it resolves to otherwise. *)
Lemma open_toc_guard blob parser spine r :
  createParser blob = Ok parser →
  parseSpine (pkg_spine (root_xml parser))
    (parseManifest (pkg_manifest_item (root_xml parser))) = Ok spine →
  parseTOC (parseManifest (pkg_manifest_item (root_xml parser)))
    (prop spine "toc") parser = Ok r →
  match r with
  | None =>
      (open parseMetadata parseManifest parseFlow parseTOC createParser
         root_xml blob).2 = throw (TypeError "NO TOC")
  | Some t =>
      ∃ parts,
        (open parseMetadata parseManifest parseFlow parseTOC createParser
           root_xml blob).2 = Ok (parts, parser) ∧ toc parts = t
  end.
Proof.
  intros Hp Hs Ht. unfold open. rewrite Hp.
  pose proof (parseRootFile_toc _ _ _ _ Hs Ht) as Hr.
  destruct (parseRootFile _ _ _ _ _ _) as [log res]. simpl in *.
  destruct r as [t|].
  - destruct Hr as (parts & -> & Htoc). by exists parts.
  - by rewrite Hr.
Qed.
End RootFileFacts.

Lemma walkSpine_no_items (spine : Spine) :
  spine !! "contents" = Some (FItems []) → succeeded (walkSpine spine) = None.
Proof. unfold walkSpine. by intros ->. Qed.

Section NoTableOfContents.
Context {RawMetadata Metadata RawItems Flow Parser Blob : Type}.
Context (parseMetadata : RawMetadata → Metadata)
        (parseManifest : RawItems → Thing)
        (parseFlow : field → Flow)
        (walkNavMap walkTOC : Thing → field → Parser → result TableOfContents)
        (createParser : Blob → result Parser)
        (root_xml : Parser → RootFile RawMetadata RawItems).

(** C2.  With [parseTOC] as the spec has it (the strategies in order,
    the first non-empty table wins): when neither the nav-map nor the
    nav-document strategy yields a non-empty table and the walk of the
    parsed spine yields none either, in particular when [spine.contents]
    is empty, opening fails with [TypeError("NO TOC")] and returns no
    parts. *)
Theorem open_fails_without_toc (blob : Blob) (parser : Parser) (spine : Spine) :
  createParser blob = Ok parser →
  parseSpine (pkg_spine (root_xml parser))
    (parseManifest (pkg_manifest_item (root_xml parser))) = Ok spine →
  succeeded (walkNavMap (parseManifest (pkg_manifest_item (root_xml parser)))
               (prop spine "toc") parser) = None →
  succeeded (walkTOC (parseManifest (pkg_manifest_item (root_xml parser)))
               (prop spine "toc") parser) = None →
  succeeded (walkSpine spine) = None ∨ spine !! "contents" = Some (FItems []) →
  (open parseMetadata parseManifest parseFlow
     (parseTOC walkNavMap walkTOC spine) createParser root_xml blob).2
  = throw (TypeError "NO TOC").
Proof.
  intros Hp Hs Hmap Hdoc Hwalk.
  assert (succeeded (walkSpine spine) = None) as Hnone
    by (destruct Hwalk; [done|by apply walkSpine_no_items]).
  apply (open_toc_guard parseMetadata parseManifest parseFlow
           (parseTOC walkNavMap walkTOC spine) createParser root_xml
           blob parser spine None Hp Hs).
  unfold parseTOC, first_success. by rewrite Hmap, Hdoc, Hnone.
Qed.
End NoTableOfContents.

Lemma open_fails_without_toc_witness :
  (open (λ x : unit, x) sample_parseManifest (λ _, ())
     (parseTOC no_navMap no_navDoc (spine_of []))
     (λ _ : unit, Ok ()) (λ _, empty_package) ()).2
  = throw (TypeError "NO TOC").
Proof.
  apply (open_fails_without_toc (λ x : unit, x) sample_parseManifest (λ _, ())
           no_navMap no_navDoc (λ _ : unit, Ok ()) (λ _, empty_package)
           () () (spine_of [])); try reflexivity.
  right. reflexivity.
Defined.

(** * Further properties *)

(** ** Reader: looking entries up *)

Lemma find_first {A} (f : A → bool) (l : list A) (x : A) :
  find f l = Some x →
  ∃ i : nat, l !! i = Some x ∧ f x = true ∧
             ∀ (j : nat) y, (j < i)%nat → l !! j = Some y → f y = false.
Proof.
  induction l as [|a l IH]; simpl; [done|].
  destruct (f a) eqn:Ha.
  - intros [= ->]. exists 0%nat. split; [done|]. split; [done|]. intros; lia.
  - intros (i & Hi & Hx & Hlt)%IH. exists (S i). split; [done|]. split; [done|].
    intros [|j] y Hj Hy; simpl in Hy; [congruence|]. apply (Hlt j); [lia|done].
Qed.

Lemma find_nothing {A} (f : A → bool) (l : list A) :
  (∀ x, x ∈ l → f x = false) → find f l = None.
Proof.
  induction l as [|a l IH]; simpl; [done|]. intros Hall.
  rewrite (Hall a) by (by left). apply IH. intros x Hx. apply Hall. by right.
Qed.

Lemma find_something {A} (f : A → bool) (l : list A) (x : A) :
  x ∈ l → f x = true → ∃ y, find f l = Some y.
Proof.
  intros Hx Hf. destruct (find f l) as [y|] eqn:E; [by eauto|].
  apply list_elem_of_In in Hx. by rewrite (find_none f l E x Hx) in Hf.
Qed.

Lemma prefix_refl (s : string) : String.prefix s s = true.
Proof.
  induction s as [|a s IH]; simpl; [done|].
  destruct (ascii_dec a a); [apply IH|congruence].
Qed.

Lemma includes_refl (s : string) : includes s s = true.
Proof. destruct s; [done|]. cbn [includes]. by rewrite prefix_refl. Qed.

Section ReaderFacts.
Context `{Platform}.

Lemma partialSearch_eq name r :
  Reader.partialSearch name r =
    match decodeURI (strip_slash name) with
    | inl e => (throw e, r)
    | inr d =>
        match find (matches (toLowerCase d)) (Reader.entries r) with
        | Some e => (Ok e, r)
        | None => (throw (not_found (toLowerCase d)), r)
        end
    end.
Proof.
  unfold Reader.partialSearch, Reader.prepareGet, Reader.lift,
    Reader.this_entries, Reader.raise, mbind, Reader.io_bind, mret,
    Reader.io_ret, strip_slash.
  destruct (decodeURI _) as [e|d]; [done|]. simpl.
  change (λ n : Entry, if directory n then false
            else includes (toLowerCase (filename n)) (toLowerCase d)
                 || includes (toLowerCase d) (toLowerCase (filename n)))
    with (matches (toLowerCase d)).
  by destruct (find _ _).
Qed.

Lemma read_eq name type r :
  Reader.read name type r =
    match Reader.partialSearch name r with
    | (inl e, r') => (throw e, r')
    | (inr f, r') =>
        (Ok {| file := f; data := written f (Reader.determineWriter type) |},
         after_call (GetData f (Reader.determineWriter type)) r')
    end.
Proof.
  unfold Reader.read, Reader.getData, Reader.call, mbind, Reader.io_bind,
    mret, Reader.io_ret.
  destruct (Reader.partialSearch name r) as [[e|f] r']; [done|]. simpl.
  unfold written, after_call. by destruct (Reader.determineWriter type).
Qed.

(** X1.  When [read] returns, the file it returns is the first entry of
    the archive, in archive order, that is not a directory and whose name
    in lower case contains the decoded name in lower case or is contained
    in it; the data is that entry's content, as a blob when [type]
    contains ["image/"] and as text otherwise; and the reader is as
    before but for this one [getData]. *)
Theorem read_found (name : string) (type : option string)
    (r r' : Reader.state) (l : LoadedEntry) :
  Reader.read name type r = (Ok l, r') →
  ∃ (d : string) (i : nat),
    decodeURI (strip_slash name) = Ok d ∧
    Reader.entries r !! i = Some (file l) ∧
    matches (toLowerCase d) (file l) = true ∧
    directory (file l) = false ∧
    (∀ (j : nat) e, (j < i)%nat → Reader.entries r !! j = Some e →
       matches (toLowerCase d) e = false) ∧
    data l = written (file l) (Reader.determineWriter type) ∧
    r' = after_call (GetData (file l) (Reader.determineWriter type)) r.
Proof.
  rewrite read_eq, partialSearch_eq.
  destruct (decodeURI _) as [e|d]; [done|].
  destruct (find _ _) as [f|] eqn:Hf; [|done].
  intros [= <- <-]. apply find_first in Hf as (i & Hi & Hm & Hlt).
  exists d, i. simpl. repeat split; try done.
  unfold matches in Hm. by destruct (directory f).
Qed.

(** X2.  When no entry of the archive passes the test of
    [partialSearch], [read] throws the [Error] whose message names the
    decoded name in lower case, and the reader is left untouched: nothing
    is read from the archive. *)
Theorem read_not_found (name : string) (type : option string)
    (r : Reader.state) (d : string) :
  decodeURI (strip_slash name) = Ok d →
  (∀ e, e ∈ Reader.entries r → matches (toLowerCase d) e = false) →
  Reader.read name type r = (throw (not_found (toLowerCase d)), r).
Proof.
  intros Hd Hnone. rewrite read_eq, partialSearch_eq, Hd.
  by rewrite find_nothing.
Qed.

(** X3.  The lookup of [read] is insensitive to letter case: when the
    archive holds a file (not a directory) whose name equals the decoded
    name up to case, [read] returns some entry, after exactly one
    [getData]. *)
Theorem read_present_file (name : string) (type : option string)
    (r : Reader.state) (d : string) (e : Entry) :
  decodeURI (strip_slash name) = Ok d →
  e ∈ Reader.entries r →
  directory e = false →
  toLowerCase (filename e) = toLowerCase d →
  ∃ l, Reader.read name type r =
         (Ok l, after_call (GetData (file l) (Reader.determineWriter type)) r).
Proof.
  intros Hd He Hdir Hname. rewrite read_eq, partialSearch_eq, Hd.
  destruct (find_something (matches (toLowerCase d)) (Reader.entries r) e He)
    as [f ->].
  - unfold matches. by rewrite Hdir, Hname, includes_refl.
  - by exists {| file := f; data := written f (Reader.determineWriter type) |}.
Qed.

(** X4.  [get] looks for the exact, case-sensitive file name among all
    entries, directories included: what it returns is an entry of that
    very name; it throws the not-found [Error] when no entry has that
    name and returns when one has; and it never touches the reader. *)
Theorem get_exact_name (name : string) (r : Reader.state) :
  (∀ e r', Reader.get name r = (Ok e, r') →
     r' = r ∧ e ∈ Reader.entries r ∧ filename e = name) ∧
  ((∀ e, e ∈ Reader.entries r → filename e ≠ name) →
   Reader.get name r = (throw (not_found name), r)) ∧
  (∀ e, e ∈ Reader.entries r → filename e = name →
     ∃ e', Reader.get name r = (Ok e', r)).
Proof.
  unfold Reader.get, Reader.prepareGet, Reader.this_entries, Reader.raise,
    mbind, Reader.io_bind, mret, Reader.io_ret. simpl.
  split; [|split].
  - intros e r'. destruct (find _ _) as [f|] eqn:Hf; [|done].
    intros [= <- <-]. apply find_some in Hf as [Hin Hn].
    split; [done|]. split; [by apply list_elem_of_In|].
    by apply bool_decide_eq_true in Hn.
  - intros Hnone. rewrite find_nothing; [done|].
    intros e He. apply bool_decide_eq_false. by apply Hnone.
  - intros e He Hn.
    destruct (find_something (λ n, bool_decide (filename n = name))
                (Reader.entries r) e He) as [f ->]; [|by eauto].
    by apply bool_decide_eq_true.
Qed.
End ReaderFacts.

(** ** Reader: init *)

(** The reader once the entries are listed and the zip is closed. *)
Lemma init_eq `{Platform} (r : Reader.state) :
  let r1 := {| Reader.blob := Reader.blob r; Reader.entries := Reader.blob r;
               Reader.container := Reader.container r;
               Reader.calls := Reader.calls r ++ [GetEntries; Close] |} in
  Reader.init r =
    if bool_decide (length (Reader.blob r) ≠ 0%nat) then
      match Reader.read INFO.TARGET None r1 with
      | (inl e, r2) => (throw e, r2)
      | (inr l, r2) =>
          match MIMEError_unless INFO.TARGET
                  (VStr match data l with Text s => s | BlobData _ s => s end)
                  (PString INFO.MIME) with
          | inl e => (throw e, r2)
          | inr _ =>
              match Reader.read INFO.CONTAINER_ID None r2 with
              | (inl e, r3) => (throw e, r3)
              | (inr c, r3) =>
                  (Ok (), {| Reader.blob := Reader.blob r3;
                             Reader.entries := Reader.entries r3;
                             Reader.container := Some c;
                             Reader.calls := Reader.calls r3 |})
              end
          end
      end
    else (throw (Error "Empty archive!"), r1).
Proof.
  unfold Reader.init, Reader.getEntries, Reader.set_entries, Reader.close,
    Reader.call, Reader.this_entries, Reader.raise, Reader.checkMimeType,
    Reader.lift, Reader.set_container, mbind, Reader.io_bind. simpl.
  rewrite <- app_assoc. simpl. case_bool_decide; [|done].
  destruct (Reader.read INFO.TARGET None _) as [[e|l] r2]; [done|].
  destruct (MIMEError_unless _ _ _) as [e|[]]; [done|].
  by destruct (Reader.read INFO.CONTAINER_ID None r2) as [[e|c] r3].
Qed.

Section InitFacts.
Context `{Platform}.

Lemma read_outcome name type r :
  (∃ e, Reader.read name type r = (throw e, r)) ∨
  (∃ f, f ∈ Reader.entries r ∧ directory f = false ∧
        Reader.read name type r =
          (Ok {| file := f; data := written f (Reader.determineWriter type) |},
           after_call (GetData f (Reader.determineWriter type)) r)).
Proof.
  rewrite read_eq, partialSearch_eq.
  destruct (decodeURI _) as [e|d]; [by eauto|].
  destruct (find _ _) as [f|] eqn:Hf; [|by eauto].
  right. exists f. apply find_some in Hf as [Hin Hm].
  split; [by apply list_elem_of_In|]. split; [|done].
  unfold matches in Hm. by destruct (directory f).
Qed.

(** X5.  Whatever its outcome, [init] first lists the entries and closes
    the zip, stores the listed entries in [entries], then reads at most
    two entries, each a file of the archive and each as UTF-8 text; and
    [container] changes only when [init] succeeds. *)
Theorem init_lists_and_closes_first (r : Reader.state) :
  ∃ rest,
    Reader.calls (Reader.init r).2 = Reader.calls r ++ GetEntries :: Close :: rest ∧
    Reader.entries (Reader.init r).2 = Reader.blob r ∧
    Reader.blob (Reader.init r).2 = Reader.blob r ∧
    (length rest ≤ 2)%nat ∧
    (∀ c, c ∈ rest →
       ∃ e, c = GetData e (TextWriter "utf-8") ∧ e ∈ Reader.blob r ∧
            directory e = false) ∧
    ((Reader.init r).1 ≠ Ok () →
     Reader.container (Reader.init r).2 = Reader.container r).
Proof.
  rewrite init_eq. cbv zeta. case_bool_decide.
  2:{ exists []. simpl. repeat split; try done; [lia|by intros c []%elem_of_nil]. }
  destruct (read_outcome INFO.TARGET None
    {| Reader.blob := Reader.blob r; Reader.entries := Reader.blob r;
       Reader.container := Reader.container r;
       Reader.calls := Reader.calls r ++ [GetEntries; Close] |})
    as [[e ->]|(m & Hm & Hmd & ->)].
  { exists []. simpl. rewrite <- ?app_assoc.
    repeat split; try done; [lia|by intros c []%elem_of_nil]. }
  simpl in Hm. destruct (MIMEError_unless _ _ _) as [e|[]].
  { exists [GetData m (TextWriter "utf-8")]. simpl. rewrite <- ?app_assoc.
    repeat split; try done; [lia|].
    intros c ->%list_elem_of_singleton. by exists m. }
  destruct (read_outcome INFO.CONTAINER_ID None
    (after_call (GetData m (Reader.determineWriter None))
      {| Reader.blob := Reader.blob r; Reader.entries := Reader.blob r;
         Reader.container := Reader.container r;
         Reader.calls := Reader.calls r ++ [GetEntries; Close] |}))
    as [[e ->]|(c & Hc & Hcd & ->)].
  { exists [GetData m (TextWriter "utf-8")]. simpl. rewrite <- ?app_assoc.
    repeat split; try done; [lia|].
    intros c ->%list_elem_of_singleton. by exists m. }
  simpl in Hc.
  exists [GetData m (TextWriter "utf-8"); GetData c (TextWriter "utf-8")].
  simpl. rewrite <- !app_assoc. repeat split; try done.
  intros x Hx. apply list_elem_of_In in Hx. simpl in Hx.
  destruct Hx as [<-|[<-|[]]]; [by exists m|by exists c].
Qed.

Lemma init_Ok_inv (r r' : Reader.state) :
  Reader.init r = (Ok (), r') →
  Reader.blob r ≠ [] ∧
  ∃ dm dc m c,
    decodeURI INFO.TARGET = Ok dm ∧
    decodeURI INFO.CONTAINER_ID = Ok dc ∧
    find (matches (toLowerCase dm)) (Reader.blob r) = Some m ∧
    find (matches (toLowerCase dc)) (Reader.blob r) = Some c ∧
    MIMEError_unless INFO.TARGET (VStr (content m)) (PString INFO.MIME) = Ok () ∧
    r' = {| Reader.blob := Reader.blob r; Reader.entries := Reader.blob r;
            Reader.container := Some {| file := c; data := Text (content c) |};
            Reader.calls := Reader.calls r ++
              [GetEntries; Close; GetData m (TextWriter "utf-8");
               GetData c (TextWriter "utf-8")] |}.
Proof.
  rewrite init_eq. cbv zeta. case_bool_decide as Hlen; [|done].
  rewrite !read_eq, !partialSearch_eq. simpl.
  change (strip_slash INFO.TARGET) with INFO.TARGET.
  destruct (decodeURI INFO.TARGET) as [e|dm]; [done|].
  destruct (find (matches (toLowerCase dm)) _) as [m|] eqn:Hm; [|done].
  simpl. destruct (MIMEError_unless _ _ _) as [e|[]] eqn:Hmime; [done|].
  rewrite !read_eq, !partialSearch_eq. simpl.
  change (strip_slash INFO.CONTAINER_ID) with INFO.CONTAINER_ID.
  destruct (decodeURI INFO.CONTAINER_ID) as [e|dc]; [done|].
  destruct (find (matches (toLowerCase dc)) _) as [c|] eqn:Hc; [|done].
  simpl. intros [= <-]. split; [by destruct (Reader.blob r)|].
  exists dm, dc, m, c. repeat split; try done.
  by rewrite <- !app_assoc.
Qed.

(** X6.  When [init] succeeds, the archive is not empty, the first entry
    matching ["mimetype"] has passed the MIME check, and the reader holds
    all entries, the first entry matching ["meta-inf/container.xml"] as
    [container], read as text, and a log of exactly four calls:
    [getEntries], [close], and the two reads in that order. *)
Theorem init_success (r r' : Reader.state) :
  Reader.init r = (Ok (), r') →
  Reader.blob r ≠ [] ∧
  ∃ dm dc m c,
    decodeURI INFO.TARGET = Ok dm ∧
    decodeURI INFO.CONTAINER_ID = Ok dc ∧
    find (matches (toLowerCase dm)) (Reader.blob r) = Some m ∧
    find (matches (toLowerCase dc)) (Reader.blob r) = Some c ∧
    MIMEError_unless INFO.TARGET (VStr (content m)) (PString INFO.MIME) = Ok () ∧
    r' = {| Reader.blob := Reader.blob r; Reader.entries := Reader.blob r;
            Reader.container := Some {| file := c; data := Text (content c) |};
            Reader.calls := Reader.calls r ++
              [GetEntries; Close; GetData m (TextWriter "utf-8");
               GetData c (TextWriter "utf-8")] |}.
Proof.
  rewrite init_eq. cbv zeta. case_bool_decide as Hlen; [|done].
  rewrite !read_eq, !partialSearch_eq. simpl.
  change (strip_slash INFO.TARGET) with INFO.TARGET.
  destruct (decodeURI INFO.TARGET) as [e|dm]; [done|].
  destruct (find (matches (toLowerCase dm)) _) as [m|] eqn:Hm; [|done].
  simpl. destruct (MIMEError_unless _ _ _) as [e|[]] eqn:Hmime; [done|].
  rewrite !read_eq, !partialSearch_eq. simpl.
  change (strip_slash INFO.CONTAINER_ID) with INFO.CONTAINER_ID.
  destruct (decodeURI INFO.CONTAINER_ID) as [e|dc]; [done|].
  destruct (find (matches (toLowerCase dc)) _) as [c|] eqn:Hc; [|done].
  simpl. intros [= <-]. split; [by destruct (Reader.blob r)|].
  exists dm, dc, m, c. repeat split; try done.
  by rewrite <- !app_assoc.
Qed.

(** X7.  On a non-empty archive without any entry matching ["mimetype"],
    [init] throws the not-found [Error] of [prepareGet] after listing the
    entries and closing the zip; nothing is read and [container] is not
    set. *)
Theorem init_without_mimetype (r : Reader.state) (dm : string) :
  Reader.blob r ≠ [] →
  decodeURI INFO.TARGET = Ok dm →
  (∀ e, e ∈ Reader.blob r → matches (toLowerCase dm) e = false) →
  Reader.init r =
    (throw (not_found (toLowerCase dm)),
     {| Reader.blob := Reader.blob r; Reader.entries := Reader.blob r;
        Reader.container := Reader.container r;
        Reader.calls := Reader.calls r ++ [GetEntries; Close] |}).
Proof.
  intros Hne Hd Hnone. rewrite init_eq. cbv zeta.
  rewrite bool_decide_true by (by destruct (Reader.blob r)).
  rewrite read_eq, partialSearch_eq.
  change (strip_slash INFO.TARGET) with INFO.TARGET. rewrite Hd.
  by rewrite find_nothing.
Qed.
End InitFacts.

(** ** Retriever on the Reader *)

Section RetrieverFacts.
Context `{Platform} {Metadata Flow : Type}.
Implicit Types a : RetrieverArgs Metadata Flow Reader.state.

Lemma searchManifestOrPanic_Ok a id l :
  searchManifestOrPanic a id = Ok l ↔
  index (manifest (parts a)) id = l ∧ l ≠ APrim VUndefined.
Proof.
  unfold searchManifestOrPanic.
  destruct (decide (index (manifest (parts a)) id = APrim VUndefined))
    as [Heq|Hne].
  - split; [done|]. intros [<- Hn]. done.
  - split; [by intros [= <-]|]. by intros [-> _].
Qed.

(** An entry with a string [href] was found among the own keys. *)
Lemma index_href M id elem href :
  index M id = elem → any_get elem "href" = Ok (VStr href) →
  M !! id = Some elem.
Proof.
  unfold index. destruct (M !! id) as [l|]; [by intros ->|].
  case_bool_decide; intros <-; simpl; done.
Qed.

Lemma reader_read_eq name type a :
  reader_read name type a =
    ((Reader.read name type (reader (parser a))).1,
     {| parts := parts a;
        parser := {| reader := (Reader.read name type (reader (parser a))).2 |} |}).
Proof.
  unfold reader_read. simpl.
  by destruct (Reader.read name type (reader (parser a))).
Qed.

(** X8.  When [getContent] returns, the manifest holds an entry under
    that id whose [media-type] passed the check against [ALLOWED_MIMES]
    and whose [href] is a string; exactly one file of the archive was
    read and the parts are unchanged.  The text returned is the file's
    content, unless the media type contains ["image/"] (as the allowed
    [image/svg+xml] does): the reader then yields a blob and the text
    returned is ["[object Blob]"]. *)
Theorem getContent_returns a a' (id text : string) :
  getContent id a = (Ok text, a') →
  ∃ elem mt href f,
    manifest (parts a) !! id = Some elem ∧
    any_get elem "media-type" = Ok mt ∧
    any_get elem "href" = Ok (VStr href) ∧
    MIMEError_unless id mt PALLOWED_MIMES = Ok () ∧
    f ∈ Reader.entries (reader (parser a)) ∧
    directory f = false ∧
    text = data_toString (written f (Reader.determineWriter (media_type mt))) ∧
    (∀ s, mt = VStr s → includes s "image/" = true → text = "[object Blob]") ∧
    (∀ s, mt = VStr s → includes s "image/" = false → text = content f) ∧
    a' = {| parts := parts a;
            parser := {| reader :=
              after_call (GetData f (Reader.determineWriter (media_type mt)))
                (reader (parser a)) |} |}.
Proof.
  unfold getContent.
  destruct (searchManifestOrPanic a id) as [e|elem] eqn:Hs; [done|].
  apply searchManifestOrPanic_Ok in Hs as [Hs _]. simpl.
  destruct (any_get elem "media-type") as [e|mt] eqn:Hmt; [done|]. simpl.
  destruct (MIMEError_unless id mt PALLOWED_MIMES) as [e|[]] eqn:Hmime; [done|].
  simpl. destruct (any_get elem "href") as [e|href] eqn:Hh; [done|]. simpl.
  destruct href as [| | | |href]; try done. simpl.
  apply (index_href _ _ _ _ Hs) in Hh as Hown. clear Hs. rename Hown into Hs.
  rewrite reader_read_eq.
  destruct (read_outcome href (media_type mt) (reader (parser a)))
    as [[e ->]|(f & Hf & Hdir & ->)]; [done|].
  simpl. intros [= <- <-]. exists elem, mt, href, f.
  repeat split; try done.
  - intros s -> Hi. simpl. by rewrite Hi.
  - intros s -> Hi. simpl. by rewrite Hi.
Qed.

(** X9.  When [getImage] returns, the manifest holds an entry under that
    id whose [media-type] is a string that contains ["image/"] and
    whose trimmed form passed the check against [/^image\//i], and whose
    [href] is a string; exactly one file of the archive was read, with a
    blob writer of that (untrimmed) media type, and the URL returned is
    the host's object URL of that blob; the parts are unchanged.  (A
    media type that passes the check without containing ["image/"] in
    lower case is read as text, on which [URL.createObjectURL]
    throws.) *)
Theorem getImage_returns a a' (id url : string) :
  getImage id a = (Ok url, a') →
  ∃ elem s href f,
    manifest (parts a) !! id = Some elem ∧
    any_get elem "media-type" = Ok (VStr s) ∧
    any_get elem "href" = Ok (VStr href) ∧
    MIMEError_unless id (VStr (trim s)) PImage = Ok () ∧
    includes s "image/" = true ∧
    f ∈ Reader.entries (reader (parser a)) ∧
    directory f = false ∧
    url = createObjectURL (BlobData s (content f)) ∧
    a' = {| parts := parts a;
            parser := {| reader :=
              after_call (GetData f (BlobWriter s)) (reader (parser a)) |} |}.
Proof.
  unfold getImage.
  destruct (searchManifestOrPanic a id) as [e|elem] eqn:Hs; [done|].
  apply searchManifestOrPanic_Ok in Hs as [Hs _]. simpl.
  destruct (any_get elem "media-type") as [e|mt] eqn:Hmt; [done|]. simpl.
  destruct mt as [| | | |s]; try done. simpl.
  destruct (MIMEError_unless id (VStr (trim s)) PImage) as [e|[]] eqn:Hmime;
    [done|].
  simpl. destruct (any_get elem "href") as [e|href] eqn:Hh; [done|]. simpl.
  destruct href as [| | | |href]; try done. simpl.
  apply (index_href _ _ _ _ Hs) in Hh as Hown.
  rewrite reader_read_eq.
  destruct (read_outcome href (Some s) (reader (parser a)))
    as [[e ->]|(f & Hf & Hdir & ->)]; [done|].
  simpl. destruct (includes s "image/") eqn:Hi; simpl; [|done].
  intros [= <- <-]. by exists elem, s, href, f.
Qed.

(** X10.  Whatever their outcome, [getContent] and [getImage] leave the
    parts as they are, and the reader either as it is or with one more
    [getData], on a file of the archive. *)
Theorem retrieval_reads_at_most_one_entry a (id : string) :
  (parts (getContent id a).2 = parts a ∧
   (reader (parser (getContent id a).2) = reader (parser a) ∨
    ∃ f w, f ∈ Reader.entries (reader (parser a)) ∧ directory f = false ∧
           reader (parser (getContent id a).2)
           = after_call (GetData f w) (reader (parser a)))) ∧
  (parts (getImage id a).2 = parts a ∧
   (reader (parser (getImage id a).2) = reader (parser a) ∨
    ∃ f w, f ∈ Reader.entries (reader (parser a)) ∧ directory f = false ∧
           reader (parser (getImage id a).2)
           = after_call (GetData f w) (reader (parser a)))).
Proof.
  assert (∀ name type,
    parts (reader_read name type a).2 = parts a ∧
    (reader (parser (reader_read name type a).2) = reader (parser a) ∨
     ∃ f w, f ∈ Reader.entries (reader (parser a)) ∧ directory f = false ∧
            reader (parser (reader_read name type a).2)
            = after_call (GetData f w) (reader (parser a)))) as Hread.
  { intros name type. rewrite reader_read_eq. simpl. split; [done|].
    destruct (read_outcome name type (reader (parser a)))
      as [[e ->]|(f & Hf & Hdir & ->)]; [by left|right; by eauto]. }
  split; unfold getContent, getImage.
  - destruct (_ ≫= _) as [e|[name mt]]; [by auto|].
    specialize (Hread name (media_type mt)).
    by destruct (reader_read name (media_type mt) a).
  - destruct (_ ≫= _) as [e|[name mt]]; [by auto|].
    specialize (Hread name (media_type mt)).
    by destruct (reader_read name (media_type mt) a).
Qed.
End RetrieverFacts.

(** ** parseSpine, further *)

Lemma resolve_unresolved M e i :
  (∀ o, ¬ resolves M e o) →
  ∃ msg,
    resolve M e i = throw (TypeError msg) ∧
    (∀ v, index M (idref e) = APrim v → (∀ n, v ≠ VNum n) →
       msg = "Missing id at index " +:+ pretty i +:+ " | item, " +:+ toString v) ∧
    (∀ o, index M (idref e) = AObj o →
       o !! "hasOwnProperty" = None → o !! "toString" = None →
       msg = "Missing id at index " +:+ pretty i +:+ " | item, [object Object]") ∧
    (∀ n, index M (idref e) = AInherited n →
       ∃ tail,
         msg = "Missing id at index " +:+ pretty i +:+ " | item, " +:+ tail).
Proof.
  intros Hno.
  destruct (resolve_outcome M e i) as [[o Ho]|[Hm|(o & Hi & Hh & Hr)]].
  - apply resolve_Ok in Ho. by destruct (Hno o).
  - rewrite Hm. unfold missing_id, any_toString.
    destruct (index M (idref e)) as [v|o|n].
    + eexists. split; [done|]. repeat split; try done. by intros v' [= <-] _.
    + destruct (o !! "toString") eqn:Hts.
      * eexists. split; [done|]. repeat split; try done.
        intros o' [= <-] _ Hn. congruence.
      * eexists. split; [done|]. repeat split; done.
    + eexists. split; [done|]. repeat split; try done.
      intros n' [= <-]. by eexists.
  - rewrite Hr, Hi. eexists. split; [done|]. repeat split; try done.
    intros o' [= <-] Hn. destruct Hh as [? Hh]. congruence.
Qed.

Lemma map_indexed_ext {A B} (f g : A → nat → result B) l i :
  (∀ x j, x ∈ l → f x j = g x j) → map_indexed f l i = map_indexed g l i.
Proof.
  revert i. induction l as [|x l IH]; intros i Hfg; simpl; [done|].
  rewrite Hfg by (by left). destruct (g x i); [done|]. simpl.
  rewrite IH; [done|]. intros y j Hy. apply Hfg. by right.
Qed.

(** X11.  [parseSpine] reports the first [<itemref>] that does not
    resolve: when the entry at index [k] finds nothing, a primitive, a
    built-in, or an object without own [id], and all earlier ones
    resolve, a [TypeError] is thrown; its message is
    [Missing id at index k | item, ] followed by the lookup result as a
    template literal prints it: the primitive, or [[object Object]] for
    an object (one without an attribute named [hasOwnProperty] or
    [toString], which would make the guard or the message throw a
    [TypeError] of their own). *)
Theorem parseSpine_first_unresolved (M : Thing) (raw : RawSpine) (k : nat)
    (e : ItemRef) :
  itemrefs raw !! k = Some e →
  (∀ o, ¬ resolves M e o) →
  (∀ j e', (j < k)%nat → itemrefs raw !! j = Some e' → ∃ o, resolves M e' o) →
  ∃ msg,
    parseSpine raw M = throw (TypeError msg) ∧
    (∀ v, index M (idref e) = APrim v → (∀ n, v ≠ VNum n) →
       msg = "Missing id at index " +:+ pretty k +:+ " | item, " +:+ toString v) ∧
    (∀ o, index M (idref e) = AObj o →
       o !! "hasOwnProperty" = None → o !! "toString" = None →
       msg = "Missing id at index " +:+ pretty k +:+ " | item, [object Object]") ∧
    (∀ n, index M (idref e) = AInherited n →
       ∃ tail,
         msg = "Missing id at index " +:+ pretty k +:+ " | item, " +:+ tail).
Proof.
  intros Hk Hno Hbefore. unfold itemrefs in *.
  destruct (itemref raw) as [x|] eqn:Hx; [|by rewrite lookup_nil in Hk].
  rewrite (parseSpine_itemref _ _ _ Hx).
  destruct (resolve_unresolved M e k Hno) as (msg & Hr & Hmsg).
  exists msg. split; [|exact Hmsg].
  rewrite (map_indexed_throw (resolve M) (toArray x) 0 k e (TypeError msg));
    [done|done| |done].
  intros j e' Hj He'. destruct (Hbefore j e' Hj He') as [o Ho].
  exists o. by apply resolve_Ok.
Qed.

(** X12.  The outcome of [parseSpine] depends on the manifest only
    through the entries the [<itemref>]s name: two manifests that agree
    on those give the same spine, or the same error. *)
Theorem parseSpine_referenced_entries_only (M M' : Thing) (raw : RawSpine) :
  (∀ e, e ∈ itemrefs raw → M !! idref e = M' !! idref e) →
  parseSpine raw M = parseSpine raw M'.
Proof.
  intros Hagree. unfold parseSpine, itemrefs in *.
  destruct (itemref raw) as [x|]; [|done].
  rewrite (map_indexed_ext (resolve M) (resolve M')); [done|].
  intros e j He. unfold resolve, index. fold (idref e). by rewrite Hagree.
Qed.

(** X13.  The spine [parseSpine] returns has the fields [toc],
    [contents] and [_attributes] and one field per attribute of the raw
    spine, and no other. *)
Theorem parseSpine_fields (M : Thing) (raw : RawSpine) (s : Spine) :
  parseSpine raw M = Ok s →
  dom s = {[ "toc"; "contents"; "_attributes" ]} ∪ dom (default ∅ (_attributes raw)).
Proof.
  unfold parseSpine. intros Hs.
  assert (dom (<["_attributes" := FObj ∅]>
                 ((FVal <$> default ∅ (_attributes raw))
                    ∪ {[ "toc" := FVal (VStr "ncx"); "contents" := FItems [] ]})
               : Spine)
          = {[ "toc"; "contents"; "_attributes" ]}
              ∪ dom (default ∅ (_attributes raw))) as Hdom.
  { rewrite dom_insert_L, dom_union_L, dom_fmap_L, dom_insert_L, dom_singleton_L.
    apply set_eq. intros k. set_unfold. tauto. }
  destruct (itemref raw) as [x|].
  - destruct (map_indexed _ _ _) as [?|c]; [done|]. simpl in Hs.
    injection Hs as <-. rewrite dom_insert_L, Hdom.
    apply set_eq. intros k. set_unfold. tauto.
  - by injection Hs as <-.
Qed.

(** ** walkSpine, further *)

Lemma foldl_snoc {A B} (f : A → B → A) (a : A) (l : list B) (x : B) :
  foldl f a (l ++ [x]) = f (foldl f a l) x.
Proof. revert a. induction l as [|y l IH]; intros a; simpl; [done|apply IH]. Qed.

Lemma walk_state_order items order toc :
  (foldl walk_step (order, toc) items).1 = order + Z.of_nat (length items).
Proof.
  revert order toc. induction items as [|item items IH]; intros order toc;
    cbn [foldl length].
  - simpl. lia.
  - rewrite walk_step_eq, IH. lia.
Qed.

Lemma toc_set_keys_eq k c toc :
  toc_keys (toc_set k c toc) =
    if decide (k ∈ toc_keys toc) then toc_keys toc else toc_keys toc ++ [k].
Proof.
  unfold toc_keys. induction toc as [|[k0 c0] toc IH].
  - cbn [toc_set fmap list_fmap fst].
    by destruct (decide (k ∈ [])) as [[]%elem_of_nil|].
  - cbn [toc_set fmap list_fmap fst].
    destruct (decide (k0 = k)) as [->|Hne]; cbn [fmap list_fmap fst].
    + rewrite decide_True; [done|]. by left.
    + rewrite IH. destruct (decide (k ∈ fst <$> toc)) as [Hin|Hnin].
      * rewrite decide_True; [done|]. by right.
      * rewrite decide_False; [done|]. intros [?|?]%elem_of_cons; congruence.
Qed.

Lemma toc_set_NoDup k c toc :
  NoDup (toc_keys toc) → NoDup (toc_keys (toc_set k c toc)).
Proof.
  intros Hnd. rewrite toc_set_keys_eq. case_decide; [done|].
  apply NoDup_app. split; [done|]. split; [|apply NoDup_singleton].
  intros x Hx ->%list_elem_of_singleton. done.
Qed.

Lemma toc_set_elem k c toc k' c' :
  NoDup (toc_keys toc) →
  (k', c') ∈ toc_set k c toc ↔
  (k' = k ∧ c' = c) ∨ (k' ≠ k ∧ (k', c') ∈ toc).
Proof.
  unfold toc_keys. induction toc as [|[k0 c0] toc IH]; simpl; intros Hnd.
  - rewrite list_elem_of_singleton. split.
    + intros [= -> ->]. by left.
    + intros [[-> ->]|[_ []%elem_of_nil]]. done.
  - apply NoDup_cons in Hnd as [Hk0 Hnd].
    destruct (decide (k0 = k)) as [->|Hne]; rewrite !elem_of_cons.
    + split.
      * intros [[= -> ->]|Hin]; [by left|]. right. split; [|by right].
        intros ->. apply Hk0. apply list_elem_of_fmap. by exists (k, c').
      * intros [[-> ->]|[Hne [[= ? ?]|Hin]]]; [by left|done|by right].
    + rewrite (IH Hnd). split.
      * intros [[= -> ->]|[[-> ->]|[? ?]]]; [right|by left|right]; split; auto.
      * intros [[-> ->]|[? [[= -> ->]|?]]]; [right; by left|by left|].
        right. right. by split.
Qed.

(** The entries of the table after the loop: for each id that is kept,
    the chapter made of the last item with that id. *)
Lemma walk_inv items :
  NoDup (toc_keys (walk items)) ∧
  ∀ k ch, (k, ch) ∈ walk items ↔
    ∃ (i : nat) item,
      items !! i = Some item ∧ get item "id" = k ∧ eq_undefined k = false ∧
      ch = element (Z.of_nat i) item ∧
      ∀ (j : nat) item', (i < j)%nat → items !! j = Some item' →
                         get item' "id" ≠ k.
Proof.
  unfold walk. induction items as [|x items IH] using rev_ind.
  - simpl. split; [constructor|]. intros k ch. split; [by intros ?%elem_of_nil|].
    by intros (i & item & ? & _).
  - destruct IH as [Hnd IH]. rewrite foldl_snoc.
    pose proof (walk_state_order items 0 []) as Ho.
    destruct (foldl walk_step (0, []) items) as [o toc]. simpl in Ho, Hnd, IH.
    subst o. rewrite walk_step_eq. rewrite Z.add_0_l. cbn [snd].
    assert (∀ (j : nat) item', (items ++ [x]) !! j = Some item' →
              (j < length items)%nat ∧ items !! j = Some item' ∨
              j = length items ∧ item' = x) as Hsplit.
    { intros j item' Hj. apply lookup_app_Some in Hj as [?|[? Hj]].
      - left. split; [by eapply lookup_lt_Some|done].
      - right. apply list_lookup_singleton_Some in Hj as [? <-]. split; [lia|done]. }
    destruct (skipped x) eqn:Hx.
    + split; [done|]. intros k ch. rewrite IH. split.
      * intros (i & item & Hi & Hid & Hk & Hch & Hlast).
        exists i, item. repeat split; try done.
        { apply lookup_app_l_Some. done. }
        intros j item' Hij Hj. destruct (Hsplit j item' Hj) as [[_ Hj']|[_ ->]].
        -- by apply (Hlast j).
        -- unfold skipped in Hx. intros Heq. congruence.
      * intros (i & item & Hi & Hid & Hk & Hch & Hlast).
        destruct (Hsplit i item Hi) as [[Hlt Hi']|[_ ->]].
        -- exists i, item. repeat split; try done.
           intros j item' Hij Hj. apply (Hlast j); [done|].
           by apply lookup_app_l_Some.
        -- unfold skipped in Hx. congruence.
    + split; [by apply toc_set_NoDup|]. intros k ch.
      rewrite (toc_set_elem _ _ _ _ _ Hnd), IH. split.
      * intros [[-> ->]|[Hne (i & item & Hi & Hid & Hk & Hch & Hlast)]].
        -- exists (length items), x. repeat split; try done.
           { by rewrite lookup_app_r, Nat.sub_diag by lia. }
           intros j item' Hij Hj. apply lookup_lt_Some in Hj.
           rewrite length_app in Hj. simpl in Hj. lia.
        -- exists i, item. repeat split; try done.
           { by apply lookup_app_l_Some. }
           intros j item' Hij Hj. destruct (Hsplit j item' Hj) as [[_ Hj']|[_ ->]].
           ++ by apply (Hlast j).
           ++ done.
      * intros (i & item & Hi & Hid & Hk & Hch & Hlast).
        destruct (Hsplit i item Hi) as [[Hlt Hi']|[-> ->]].
        -- right. split.
           { intros ->. apply (Hlast (length items) x); [done| |done].
             by rewrite lookup_app_r, Nat.sub_diag by lia. }
           exists i, item. repeat split; try done.
           intros j item' Hij Hj. apply (Hlast j); [done|].
           by apply lookup_app_l_Some.
        -- left. by split.
Qed.

(** X14.  On every array of items, the table [walkSpine] returns has no
    key twice, every chapter carries its key as [id], and the entries
    are exactly, for each id that is neither [undefined] nor [null], the
    chapter built from the last item with that id, numbered with that
    item's position. *)
Theorem walkSpine_last_write_wins (spine : Spine) (items : list Item) :
  spine !! "contents" = Some (FItems items) →
  ∃ toc,
    walkSpine spine = Ok toc ∧
    NoDup (toc_keys toc) ∧
    (∀ k ch, (k, ch) ∈ toc → get ch "id" = k) ∧
    ∀ k ch, (k, ch) ∈ toc ↔
      ∃ (i : nat) item,
        items !! i = Some item ∧ get item "id" = k ∧ eq_undefined k = false ∧
        ch = element (Z.of_nat i) item ∧
        ∀ (j : nat) item', (i < j)%nat → items !! j = Some item' →
                           get item' "id" ≠ k.
Proof.
  intros Hc. exists (walk items). split; [by apply walkSpine_array|].
  destruct (walk_inv items) as [Hnd Hinv]. split; [done|]. split; [|done].
  intros k ch (i & item & _ & Hid & _ & -> & _)%Hinv.
  by rewrite get_element_id.
Qed.

Lemma remove_dups_length (l : list value) :
  (length (remove_dups l) ≤ length l)%nat.
Proof.
  induction l as [|x l IH]; simpl; [done|].
  destruct (decide_rel _ x l); simpl; lia.
Qed.

(** X15.  The table [walkSpine] returns has one entry per distinct id
    among the items that are not skipped, hence at most as many entries
    as [spine.contents] has items. *)
Theorem walkSpine_entry_count (spine : Spine) (items : list Item) :
  spine !! "contents" = Some (FItems items) →
  ∃ toc,
    walkSpine spine = Ok toc ∧
    toc_keys toc ≡ₚ remove_dups (kept_ids items) ∧
    length toc = length (remove_dups (kept_ids items)) ∧
    (length toc ≤ length items)%nat.
Proof.
  intros Hc. exists (walk items). split; [by apply walkSpine_array|].
  assert (toc_keys (walk items) ≡ₚ remove_dups (kept_ids items)) as Hperm.
  { apply NoDup_Permutation; [apply walk_inv|apply NoDup_remove_dups|].
    intros k. rewrite elem_of_remove_dups. unfold walk. rewrite walk_keys.
    unfold kept_ids. rewrite list_elem_of_fmap. split.
    - intros [[]%elem_of_nil|(item & Hin & Hid & Hk)].
      exists item. split; [done|]. apply list_elem_of_filter. split; [|done].
      unfold skipped. by rewrite Hid.
    - intros (item & -> & [Hs Hin]%list_elem_of_filter). right. by exists item. }
  split; [done|].
  assert (length (walk items) = length (remove_dups (kept_ids items))) as Hlen.
  { rewrite <- Hperm. unfold toc_keys. by rewrite length_fmap. }
  split; [done|]. rewrite Hlen.
  etrans; [apply remove_dups_length|].
  unfold kept_ids. rewrite length_fmap. apply length_filter.
Qed.

(** X16.  [walkSpine] does not throw on a spine [parseSpine] returned
    for a raw spine with an [itemref] member, and the keys of its table
    are exactly the ids, other than [undefined] and [null], of the
    manifest entries the [<itemref>]s name. *)
Theorem walkSpine_after_parseSpine (M : Thing) (raw : RawSpine) (s : Spine) :
  parseSpine raw M = Ok s →
  is_Some (itemref raw) →
  ∃ toc,
    walkSpine s = Ok toc ∧
    ∀ k, k ∈ toc_keys toc ↔
      ∃ e o, e ∈ itemrefs raw ∧ M !! idref e = Some (AObj o) ∧
             get o "id" = k ∧ eq_undefined k = false.
Proof.
  intros Hs [x Hx]. unfold itemrefs. rewrite Hx.
  rewrite (parseSpine_itemref _ _ _ Hx) in Hs.
  destruct (map_indexed _ _ _) as [?|items] eqn:Hitems; [done|].
  simpl in Hs. injection Hs as <-.
  apply map_indexed_Ok in Hitems as [Hlen Hitems].
  exists (walk items). split.
  { apply walkSpine_array. by rewrite lookup_insert_eq. }
  intros k. unfold walk. rewrite walk_keys. split.
  - intros [[]%elem_of_nil|(o & Ho & Hid & Hk)].
    apply list_elem_of_lookup in Ho as [i Hi].
    destruct (toArray x !! i) as [e|] eqn:He.
    + destruct (Hitems i e He) as (o' & Ho' & Hr).
      assert (o' = o) as -> by congruence.
      apply resolve_Ok in Hr as [HM _]. exists e, o.
      split; [by eapply list_elem_of_lookup_2|done].
    + apply lookup_ge_None in He. apply lookup_lt_Some in Hi. lia.
  - intros (e & o & He & HM & Hid & Hk). right.
    apply list_elem_of_lookup in He as [i Hi].
    destruct (Hitems i e Hi) as (o' & Ho' & Hr).
    apply resolve_Ok in Hr as [HM' _].
    assert (o' = o) as -> by congruence.
    exists o. split; [by eapply list_elem_of_lookup_2|done].
Qed.

(** ** parseRootFile and open, further *)

Section OpenFacts.
Context {RawMetadata Metadata RawItems Flow Parser Blob : Type}.
Context (parseMetadata : RawMetadata → Metadata)
        (parseManifest : RawItems → Thing)
        (parseFlow : field → Flow)
        (parseTOC : Thing → field → Parser → result (option TableOfContents))
        (createParser : Blob → result Parser)
        (root_xml : Parser → RootFile RawMetadata RawItems).

Abbreviation open_ :=
  (open parseMetadata parseManifest parseFlow parseTOC createParser root_xml).


(** X19.  When [open] returns, the parts fit together: the manifest is
    the parsed manifest, the spine is what [parseSpine] returns for it,
    the flow is built from that spine's [contents], the table of contents
    is what [parseTOC] resolved to for that spine's [toc], and [version]
    is the [version] attribute of the package, or ["2.0"] when that is
    [undefined] or [null]; so it is never [undefined] or [null]. *)
Theorem open_success_parts (blob : Blob) (parts : Parts Metadata Flow)
    (parser : Parser) :
  (open_ blob).2 = Ok (parts, parser) →
  createParser blob = Ok parser ∧
  metadata parts = parseMetadata (pkg_metadata (root_xml parser)) ∧
  manifest parts = parseManifest (pkg_manifest_item (root_xml parser)) ∧
  parseSpine (pkg_spine (root_xml parser)) (manifest parts) = Ok (spine parts) ∧
  flow parts = parseFlow (prop (spine parts) "contents") ∧
  parseTOC (manifest parts) (prop (spine parts) "toc") parser
    = Ok (Some (toc parts)) ∧
  eq_undefined (version parts) = false ∧
  (eq_undefined (get (pkg_attributes (root_xml parser)) "version") = false →
   version parts = get (pkg_attributes (root_xml parser)) "version") ∧
  (eq_undefined (get (pkg_attributes (root_xml parser)) "version") = true →
   version parts = VStr "2.0").
Proof.
  unfold open, parseRootFile.
  destruct (createParser blob) as [e|parser']; [done|].
  destruct (parseSpine _ _) as [e|sp] eqn:Hs; [done|].
  destruct (parseTOC _ _ _) as [e|[t|]] eqn:Ht; [done| |done].
  simpl. intros [= <- <-]. simpl.
  destruct (eq_undefined (get (pkg_attributes (root_xml parser')) "version"))
    eqn:Hv; repeat split; done.
Qed.
End OpenFacts.

(** ** Container and parse *)

(** X20.  [getRootPath] throws [TypeError("No rootfiles found")] exactly
    when the container has no [rootfiles] or that has no [rootfile]; and
    when it returns, there is a single [rootfile] with attributes whose
    [media-type] passed the MIME check, and the value returned is its
    [full-path] attribute as it stands, [undefined] when it is missing. *)
Theorem getRootPath_outcome (c : Container) :
  (getRootPath c = throw (TypeError "No rootfiles found") ↔
   rootfiles c = None ∨ ∃ rfs, rootfiles c = Some rfs ∧ rootfile rfs = None) ∧
  (∀ v, getRootPath c = Ok v →
     ∃ rfs d,
       rootfiles c = Some rfs ∧ rootfile rfs = Some (One (Some d)) ∧
       MIMEError_unless INFO.CONTAINER_ID (get d "media-type")
         (PString INFO.OEBPS_ID) = Ok () ∧
       v = get d "full-path").
Proof.
  unfold getRootPath. destruct (rootfiles c) as [rfs|];
    [|split; [split; [by left|done]|done]].
  destruct (rootfile rfs) as [[[d|]|l]|] eqn:Hrf.
  - destruct (MIMEError_unless _ _ _) as [e|[]] eqn:Hm; simpl.
    + split; [|done]. split.
      * unfold MIMEError_unless in Hm. destruct (pattern_test _ _); [done|].
        injection Hm as <-. done.
      * intros [[=]|(r & [= <-] & ?)]. congruence.
    + split.
      * split; [done|]. intros [[=]|(r & [= <-] & ?)]. congruence.
      * intros v [= <-]. by exists rfs, d.
  - split; [|done]. split; [done|]. intros [[=]|(r & [= <-] & ?)]. congruence.
  - split; [|done]. split; [done|]. intros [[=]|(r & [= <-] & ?)]. congruence.
  - split; [|done]. split; [|done]. intros _. right. by exists rfs.
Qed.

Section ParseFacts.
Context `{Platform} {Xml : Type}.
Context (xml2js : string → result Xml) (xml_container : Xml → option Container).

(** X21.  When [parse] returns, the reader it holds has all entries of
    the blob and a log of exactly six calls: [getEntries], [close], the
    read of the mimetype entry, two reads of the same container entry
    (one by [init], one by [parseContainer]) and the read of the root
    file, all as text; the container converted from the trimmed text
    gave a string root path, and the root xml is the conversion of the
    root file's text. *)
Theorem parse_success (b : list Entry) (p : EpubZipParser Xml)
    (rd : Reader.state) :
  parse xml2js xml_container b = (Ok p, rd) →
  zp_reader p = rd ∧
  Reader.blob rd = b ∧ Reader.entries rd = b ∧
  ∃ m c root x cont path,
    m ∈ b ∧ c ∈ b ∧ root ∈ b ∧
    Reader.calls rd =
      [GetEntries; Close;
       GetData m (TextWriter "utf-8"); GetData c (TextWriter "utf-8");
       GetData c (TextWriter "utf-8"); GetData root (TextWriter "utf-8")] ∧
    Reader.container rd = Some {| file := c; data := Text (content c) |} ∧
    xml2js (trim (content c)) = Ok x ∧
    xml_container x = Some cont ∧
    zp_container p = Some cont ∧
    getRootPath cont = Ok (VStr path) ∧
    zp_root_path p = VStr path ∧
    xml2js (content root) = Ok (zp_root_xml p).
Proof.
  unfold parse, read_blob.
  destruct (Reader.init (Reader.new b)) as [[e|[]] rd0] eqn:Hinit; [done|].
  apply init_Ok_inv in Hinit
    as (Hne & dm & dc & m & c & Hdm & Hdc & Hm & Hc & Hmime & ->).
  unfold Reader.new in *. cbn [Reader.blob Reader.calls Reader.container] in *.
  unfold parseContainer.
  change (@read Reader.state _) with Reader.read.
  rewrite read_eq, partialSearch_eq.
  change (strip_slash INFO.CONTAINER_ID) with INFO.CONTAINER_ID.
  rewrite Hdc. cbn [Reader.entries]. rewrite Hc. simpl.
  destruct (xml2js (trim (content c))) as [e|x] eqn:Hx; [done|]. simpl.
  destruct (xml_container x) as [cont|] eqn:Hcont; [|done].
  destruct (getRootPath cont) as [e|path] eqn:Hpath; [done|].
  unfold handleRootfile. destruct path as [| | | |path]; try done. simpl.
  change (@read Reader.state _) with Reader.read.
  match goal with
  | |- context [Reader.read path None ?r] =>
      destruct (read_outcome path None r) as [[e ->]|(root & Hroot & _ & ->)]
  end; [done|].
  simpl. destruct (xml2js (content root)) as [e|xml] eqn:Hxml; [done|].
  simpl. intros [= <- <-]. simpl in Hroot. simpl.
  split; [done|]. split; [done|]. split; [done|].
  exists m, c, root, x, cont, path.
  apply find_some in Hm as [Hm _]. apply find_some in Hc as [Hc _].
  repeat split; try done; by apply list_elem_of_In.
Qed.
End ParseFacts.

(** ** The further properties on the sample book *)

(** The host of the samples. *)
#[local] Existing Instance sample_platform.

Lemma read_found_witness :
  ∃ l r',
    @Reader.read sample_platform "/OEBPS/A.xhtml" None sample_reader = (Ok l, r') ∧
    file l = entry_a ∧ directory (file l) = false ∧
    data l = Text "<html/>" ∧
    r' = after_call (GetData entry_a (TextWriter "utf-8")) sample_reader.
Proof.
  destruct (@Reader.read sample_platform "/OEBPS/A.xhtml" None sample_reader)
    as [[e|l] r'] eqn:Hread; [vm_compute in Hread; discriminate|].
  destruct (@read_found sample_platform _ _ _ _ _ Hread)
    as (d & i & _ & _ & _ & Hdir & _ & Hdata & Hr').
  assert (file l = entry_a) as Hfile
    by (vm_compute in Hread; by injection Hread as <- _).
  exists l, r'. rewrite Hdata, Hr', Hfile. done.
Defined.

Lemma read_not_found_witness :
  @Reader.read sample_platform "Missing.css" None sample_reader =
    (throw (not_found "missing.css"), sample_reader).
Proof.
  apply (@read_not_found sample_platform "Missing.css" None sample_reader
           "Missing.css"); [reflexivity|].
  intros e He. change (Reader.entries sample_reader) with sample_archive in He.
  unfold sample_archive in He. each_member He; vm_compute; reflexivity.
Defined.

Lemma read_present_file_witness :
  ∃ l, @Reader.read sample_platform "oebps/A.XHTML" None sample_reader =
         (Ok l, after_call (GetData (file l) (TextWriter "utf-8")) sample_reader).
Proof.
  apply (@read_present_file sample_platform "oebps/A.XHTML" None sample_reader
           "oebps/A.XHTML" entry_a); try reflexivity.
  change (Reader.entries sample_reader) with sample_archive.
  unfold sample_archive. set_solver.
Defined.

Lemma init_success_witness :
  Reader.blob (Reader.new sample_archive) ≠ [] ∧
  ∃ dm dc m c,
    @decodeURI sample_platform INFO.TARGET = Ok dm ∧
    @decodeURI sample_platform INFO.CONTAINER_ID = Ok dc ∧
    find (matches (toLowerCase dm)) (Reader.blob (Reader.new sample_archive))
      = Some m ∧
    find (matches (toLowerCase dc)) (Reader.blob (Reader.new sample_archive))
      = Some c ∧
    MIMEError_unless INFO.TARGET (VStr (content m)) (PString INFO.MIME) = Ok () ∧
    sample_reader =
      {| Reader.blob := Reader.blob (Reader.new sample_archive);
         Reader.entries := Reader.blob (Reader.new sample_archive);
         Reader.container := Some {| file := c; data := Text (content c) |};
         Reader.calls := Reader.calls (Reader.new sample_archive) ++
           [GetEntries; Close; GetData m (TextWriter "utf-8");
            GetData c (TextWriter "utf-8")] |}.
Proof.
  apply (@init_success sample_platform (Reader.new sample_archive) sample_reader).
  vm_compute; reflexivity.
Defined.

Lemma init_without_mimetype_witness :
  @Reader.init sample_platform (Reader.new [entry_a]) =
    (throw (not_found "mimetype"),
     {| Reader.blob := [entry_a]; Reader.entries := [entry_a];
        Reader.container := None; Reader.calls := [GetEntries; Close] |}).
Proof.
  apply (@init_without_mimetype sample_platform (Reader.new [entry_a])
           "mimetype"); [done|reflexivity|].
  intros e He. simpl in He. each_member He. vm_compute; reflexivity.
Defined.

Lemma getContent_returns_witness :
  ∃ a', @getContent _ _ _ (@Reader.reader_like sample_platform) "cover" book_args
          = (Ok "[object Blob]", a') ∧
        parts a' = parts book_args.
Proof.
  destruct (@getContent _ _ _ (@Reader.reader_like sample_platform) "cover"
              book_args) as [[e|text] a'] eqn:Hg;
    [vm_compute in Hg; discriminate|].
  destruct (@getContent_returns sample_platform _ _ _ _ _ _ Hg)
    as (elem & mt & href & f & _ & _ & _ & _ & _ & _ & _ & _ & _ & Ha').
  assert (text = "[object Blob]") as ->
    by (vm_compute in Hg; by injection Hg as <- _).
  exists a'. split; [done|]. by rewrite Ha'.
Defined.

Lemma getImage_returns_witness :
  ∃ url a' f,
    @getImage sample_platform _ _ _ (@Reader.reader_like sample_platform)
      "cover" book_args = (Ok url, a') ∧
    f ∈ sample_archive ∧
    url = @createObjectURL sample_platform
            (BlobData "image/svg+xml" (content f)) ∧
    reader (parser a') =
      after_call (GetData f (BlobWriter "image/svg+xml")) sample_reader.
Proof.
  destruct (@getImage sample_platform _ _ _ (@Reader.reader_like sample_platform)
              "cover" book_args) as [[e|url] a'] eqn:Hg;
    [vm_compute in Hg; discriminate|].
  destruct (@getImage_returns sample_platform _ _ _ _ "cover" url Hg)
    as (elem & s & href & f & Hm & Hmt & _ & _ & _ & Hf & _ & Hurl & Ha').
  assert (s = "image/svg+xml") as ->.
  { vm_compute in Hm. injection Hm as <-. vm_compute in Hmt.
    by injection Hmt as <-. }
  exists url, a', f. split; [done|]. split; [exact Hf|].
  split; [exact Hurl|]. by rewrite Ha'.
Defined.

Lemma parseSpine_first_unresolved_witness :
  parseSpine spine_a_c manifest_no_id =
    throw (TypeError "Missing id at index 1 | item, [object Object]").
Proof.
  destruct (parseSpine_first_unresolved manifest_no_id spine_a_c 1 (ref_to "c"))
    as (msg & -> & _ & Hobj & _).
  - reflexivity.
  - intros o (Hm & [v Hv] & _). vm_compute in Hm. injection Hm as <-.
    vm_compute in Hv. discriminate.
  - intros j e' Hj He'. destruct j as [|j]; [|lia].
    injection He' as <-. eexists; split; [vm_compute; reflexivity|].
    split; [by eexists|vm_compute; reflexivity].
  - rewrite (Hobj item_no_id); reflexivity.
Defined.

Lemma parseSpine_referenced_entries_only_witness :
  parseSpine spine_ab manifest_ab =
  parseSpine spine_ab (<["zz" := APrim VNull]> manifest_ab).
Proof.
  apply (parseSpine_referenced_entries_only manifest_ab
           (<["zz" := APrim VNull]> manifest_ab) spine_ab).
  intros e He. each_member He; vm_compute; reflexivity.
Defined.

Lemma parseSpine_fields_witness :
  ∃ s, parseSpine spine_reserved manifest_ab = Ok s ∧
       dom s = {[ "toc"; "contents"; "_attributes" ]}
                 ∪ dom (default ∅ (_attributes spine_reserved)).
Proof.
  destruct (parseSpine spine_reserved manifest_ab) as [e|s] eqn:Hs;
    [vm_compute in Hs; discriminate|].
  exists s. split; [done|].
  exact (parseSpine_fields manifest_ab spine_reserved s Hs).
Defined.

Lemma walkSpine_last_write_wins_witness :
  ∃ toc,
    walkSpine (spine_of [item_a; item_b; item_a]) = Ok toc ∧
    NoDup (toc_keys toc) ∧
    (VStr "a", element 2 item_a) ∈ toc.
Proof.
  destruct (walkSpine_last_write_wins (spine_of [item_a; item_b; item_a])
              [item_a; item_b; item_a] eq_refl) as (toc & Htoc & Hnd & _ & Hin).
  exists toc. split; [exact Htoc|]. split; [exact Hnd|].
  apply Hin. exists 2%nat, item_a. repeat split; try done.
  intros j item' Hj Hl. apply lookup_lt_Some in Hl. simpl in Hl. lia.
Defined.

Lemma walkSpine_entry_count_witness :
  ∃ toc,
    walkSpine (spine_of [item_a; item_no_id; item_b; item_a]) = Ok toc ∧
    length toc = 2%nat.
Proof.
  destruct (walkSpine_entry_count (spine_of [item_a; item_no_id; item_b; item_a])
              [item_a; item_no_id; item_b; item_a] eq_refl)
    as (toc & Htoc & _ & Hlen & _).
  exists toc. split; [exact Htoc|]. rewrite Hlen. vm_compute. reflexivity.
Defined.

Lemma walkSpine_after_parseSpine_witness :
  ∃ s toc,
    parseSpine spine_ab manifest_ab = Ok s ∧
    walkSpine s = Ok toc ∧
    ∀ k, k ∈ toc_keys toc ↔
      ∃ e o, e ∈ itemrefs spine_ab ∧ manifest_ab !! idref e = Some (AObj o) ∧
             get o "id" = k ∧ eq_undefined k = false.
Proof.
  destruct (parseSpine spine_ab manifest_ab) as [e|s] eqn:Hs;
    [vm_compute in Hs; discriminate|].
  destruct (walkSpine_after_parseSpine manifest_ab spine_ab s Hs)
    as (toc & Htoc & Hkeys); [by eexists|].
  by exists s, toc.
Defined.

Lemma open_success_parts_witness :
  ∃ parts,
    (open (λ x : unit, x) sample_parseManifest (λ _, ())
       (parseTOC no_navMap no_navDoc (spine_of [item_of "a" "a.xhtml"]))
       (λ _ : unit, Ok ()) (λ _, package_a) ()).2
    = Ok (parts, ()) ∧
    version parts = VStr "2.0" ∧
    parseTOC no_navMap no_navDoc (spine_of [item_of "a" "a.xhtml"])
      (manifest parts) (prop (spine parts) "toc") ()
    = Ok (Some (toc parts)).
Proof.
  destruct (open (λ x : unit, x) sample_parseManifest (λ _, ())
              (parseTOC no_navMap no_navDoc (spine_of [item_of "a" "a.xhtml"]))
              (λ _ : unit, Ok ()) (λ _, package_a) ()).2
    as [e|[parts []]] eqn:Ho; [vm_compute in Ho; discriminate|].
  destruct (open_success_parts _ _ _ _ _ _ _ _ _ Ho)
    as (_ & _ & _ & _ & _ & Htoc & _ & _ & Hv).
  exists parts. split; [done|]. split; [|exact Htoc].
  apply Hv. vm_compute; reflexivity.
Defined.

Lemma parse_success_witness :
  ∃ p rd,
    @parse _ sample_xml2js sample_xml_container sample_platform sample_archive
      = (Ok p, rd) ∧
    zp_reader p = rd ∧
    zp_root_path p = VStr "OEBPS/content.opf" ∧
    zp_root_xml p = "<package/>" ∧
    Reader.calls rd =
      [GetEntries; Close;
       GetData entry_mimetype (TextWriter "utf-8");
       GetData entry_container (TextWriter "utf-8");
       GetData entry_container (TextWriter "utf-8");
       GetData entry_opf (TextWriter "utf-8")].
Proof.
  destruct (@parse _ sample_xml2js sample_xml_container sample_platform
              sample_archive) as [[e|p] rd] eqn:Hp;
    [vm_compute in Hp; discriminate|].
  destruct (@parse_success sample_platform _ _ _ _ _ _ Hp) as (Hrd & _).
  exists p, rd. split; [done|]. split; [exact Hrd|].
  vm_compute in Hp. injection Hp as <- <-. repeat split.
Defined.
